(** * nutcracker: frame reconstruction and schema inference

    A shallow embedding of [src/nutcracker/smush/decode.py],
    [src/nutcracker/core/index.py] and [src/nutcracker/core/chunk.py],
    followed by the properties of the specification that concern them and by
    further properties read off the code.

    Conventions of the embedding:
    - a Python [int] is a [Z]; a [bytes] value is a list of [byte];
    - a function that may raise returns a [result]; [Raise e] is the
      exception leaving the function, [Ok v] its return value;
    - a generator returns the list of the values it yields together with the
      exception, if any, that ends the iteration;
    - [assert] statements are executed (the interpreter's default mode);
    - [print] and logging calls have no effect on the values computed and are
      left out. *)

From Stdlib Require Import ZArith Lia.
From Stdlib.Strings Require Import Byte.
From stdpp Require Import base option list strings pretty gmap.

#[global] Set Warnings "-register-all".

Local Open Scope string_scope.
Local Open Scope Z_scope.

(** ** Exceptions as values *)

Inductive result (E A : Type) : Type :=
| Ok (a : A)
| Raise (e : E).
Arguments Ok {E A} a.
Arguments Raise {E A} e.

#[global] Instance result_ret {E} : MRet (result E) := fun _ a => Ok a.
#[global] Instance result_bind {E} : MBind (result E) :=
  fun _ _ f m => match m with Ok a => f a | Raise e => Raise e end.
#[global] Instance result_fmap {E} : FMap (result E) :=
  fun _ _ f m => match m with Ok a => Ok (f a) | Raise e => Raise e end.

(** ** Byte strings *)

Abbreviation bytes := (list byte).

#[global] Instance byte_eq_decision : EqDecision byte := Byte.byte_eq_dec.

Definition byte_to_Z (b : byte) : Z := Z.of_N (Byte.to_N b).

(** [len(x)] *)
Definition len {A} (l : list A) : Z := Z.of_nat (length l).

(** [v in range(256)] *)
Definition in_byte_range (v : Z) : bool := (0 <=? v) && (v <? 256).

(** [struct.unpack('>I', b)]: one big-endian unsigned 32-bit integer; the
    buffer must hold exactly four bytes. *)
Definition be_uint32 (b0 b1 b2 b3 : byte) : Z :=
  Z.lor (Z.shiftl (byte_to_Z b0) 24)
    (Z.lor (Z.shiftl (byte_to_Z b1) 16)
       (Z.lor (Z.shiftl (byte_to_Z b2) 8) (byte_to_Z b3))).

(** One little-endian signed 16-bit integer, the ['h'] format. *)
Definition le_int16 (lo hi : byte) : Z :=
  let u := Z.lor (byte_to_Z lo) (Z.shiftl (byte_to_Z hi) 8) in
  if u <? 32768 then u else u - 65536.

Fixpoint le_int16s (b : bytes) : list Z :=
  match b with
  | lo :: hi :: rest => le_int16 lo hi :: le_int16s rest
  | _ => []
  end.

(** * smush/decode.py *)

Module image.
(** [image.ImagePosition]: the bounding box of a frame object. *)
Record ImagePosition : Type := mkImagePosition { x1 : Z; y1 : Z; x2 : Z; y2 : Z }.

(** [image.Matrix]: rows of palette indices. *)
Definition Matrix : Type := list (list Z).
End image.

Module fobj.
(** The header [unobj] extracts from a frame object. *)
Record FrameObjectHeader : Type :=
  mkFrameObjectHeader { codec : Z; x1 : Z; y1 : Z; x2 : Z; y2 : Z }.
End fobj.

Module Decode.

Inductive Exception : Type :=
| AssertionError
| ValueError
| StructError
| ExternalError (origin : string).

Abbreviation res := (result Exception).

(** [smush.types.Element], as far as this module reads it. *)
Inductive Element : Type :=
  mkElement { tag : string; children : list Element; data : bytes }.

Definition clip (lower upper value : Z) : Z :=
  if value <? lower then lower else if value >? upper then upper else value.

Definition clip_byte : Z -> Z := clip 0 255.

Definition delta_color (org_color delta_color : Z) : Z :=
  clip_byte ((129 * org_color + delta_color) / 128).

Definition Screen : Type := image.ImagePosition * image.Matrix.

(** The [screen] field is declared as a pair, but [decode_frame_object]
    stores whatever [convert_fobj] returns, [None] included; hence the
    option. The palette is held as the integers that iterating it yields
    (it is a [bytes] or a tuple of [int] depending on who stored it). *)
Record FrameGenCtx : Type := mkFrameGenCtx {
  palette : list Z;
  screen : option Screen;
  delta_pal : list Z;
  frame : option Element
}.

Definition replace_palette (ctx : FrameGenCtx) (p : list Z) : FrameGenCtx :=
  {| palette := p; screen := screen ctx;
     delta_pal := delta_pal ctx; frame := frame ctx |}.

Definition replace_screen (ctx : FrameGenCtx) (s : option Screen) : FrameGenCtx :=
  {| palette := palette ctx; screen := s;
     delta_pal := delta_pal ctx; frame := frame ctx |}.

Definition replace_frame (ctx : FrameGenCtx) (f : option Element) : FrameGenCtx :=
  {| palette := palette ctx; screen := screen ctx;
     delta_pal := delta_pal ctx; frame := f |}.

Definition replace_delta_pal_palette (ctx : FrameGenCtx) (d p : list Z) : FrameGenCtx :=
  {| palette := p; screen := screen ctx; delta_pal := d; frame := frame ctx |}.

Definition npal (ctx : FrameGenCtx) (data : bytes) : FrameGenCtx :=
  replace_palette ctx (byte_to_Z <$> data).

(** [assert cond] *)
Definition assert (cond : bool) : res unit :=
  if cond then Ok tt else Raise AssertionError.

(** [bytes(ints)]: every item must be in [range(256)]. The byte string is
    kept as the list of the integers it holds. *)
Definition bytes_of_ints (l : list Z) : res (list Z) :=
  if forallb in_byte_range l then Ok l else Raise ValueError.

(** [struct.unpack(f'<{n}h', b)] *)
Definition unpack_le_h (n : nat) (b : bytes) : res (list Z) :=
  if bool_decide (length b = (2 * n)%nat) then Ok (le_int16s b) else Raise StructError.

(** [b'\00\00\00\02'] and [b'\00\00\00\01\00\00'] (octal escapes). *)
Definition LARGE_XPAL_MARK : bytes := [x00; x00; x00; x02].
Definition SMALL_XPAL_MARK : bytes := [x00; x00; x00; x01; x00; x00].

Definition xpal (ctx : FrameGenCtx) (data : bytes) : res FrameGenCtx :=
  let sub_size := len data in
  if sub_size =? 768 * 3 + 4 then
    _ ← assert (bool_decide (take 4 data = LARGE_XPAL_MARK));
    delta_pal ← unpack_le_h 768 (take (2 * 768) (drop 4 data));
    let palette := byte_to_Z <$> drop (4 + 2 * 768) data in
    Ok (replace_delta_pal_palette ctx delta_pal palette)
  else if sub_size =? 6 then
    _ ← assert (bool_decide (data = SMALL_XPAL_MARK));
    _ ← assert (len (delta_pal ctx) =? 768);
    _ ← assert (len (palette ctx) =? 768);
    palette ← bytes_of_ints (zip_with delta_color (palette ctx) (delta_pal ctx));
    Ok (replace_palette ctx palette)
  else Raise AssertionError.

Definition unsupported_frame_comp (ctx : FrameGenCtx) (data : bytes) : FrameGenCtx := ctx.

(** No component is a pixel payload. *)
Definition no_pixel_payload (comps : list Element) : Prop :=
  Forall (fun comp => tag comp <> "FOBJ" /\ tag comp <> "ZFOB") comps.

Section Collaborators.

(** The frame-object parser, the codec registry and the inflater are
    imported from modules outside this file ([smush.fobj.unobj],
    [codex.codex.get_decoder], [zlib.decompress]); so is the default
    [image.ImagePosition()]. [get_decoder] answers [None] for the
    [NotImplemented] sentinel. *)
Variable unobj : bytes -> res (fobj.FrameObjectHeader * bytes).
Variable get_decoder : Z -> option (Z -> Z -> bytes -> res image.Matrix).
Variable zlib_decompress : bytes -> res bytes.
Variable ImagePosition_default : image.ImagePosition.

Definition convert_fobj (datam : bytes) : res (option Screen) :=
  '(meta, data) ← unobj datam;
  let width :=
    if negb (fobj.codec meta =? 1) then fobj.x2 meta - fobj.x1 meta else fobj.x2 meta in
  let height :=
    if negb (fobj.codec meta =? 1) then fobj.y2 meta - fobj.y1 meta else fobj.y2 meta in
  match get_decoder (fobj.codec meta) with
  | None => Ok None
  | Some decode =>
      let locs := image.mkImagePosition (fobj.x1 meta) (fobj.y1 meta)
                                        (fobj.x2 meta) (fobj.y2 meta) in
      pixels ← decode width height data;
      Ok (Some (locs, pixels))
  end.

Definition decode_frame_object (ctx : FrameGenCtx) (data : bytes) : res FrameGenCtx :=
  screen ← convert_fobj data;
  Ok (replace_screen ctx screen).

Definition decode_compressed_frame_object (ctx : FrameGenCtx) (data : bytes)
  : res FrameGenCtx :=
  decompressed_size ←
    match take 4 data with
    | [b0; b1; b2; b3] => Ok (be_uint32 b0 b1 b2 b3)
    | _ => Raise StructError
    end;
  data ← zlib_decompress (drop 4 data);
  _ ← assert (len data =? decompressed_size);
  decode_frame_object ctx data.

Definition Handler : Type := FrameGenCtx -> bytes -> res FrameGenCtx.

Definition DECODE_FRAME_IMAGE (tag : string) : option Handler :=
  if bool_decide (tag = "NPAL") then Some (fun ctx data => Ok (npal ctx data))
  else if bool_decide (tag = "XPAL") then Some xpal
  else if bool_decide (tag = "ZFOB") then Some decode_compressed_frame_object
  else if bool_decide (tag = "FOBJ") then Some decode_frame_object
  else None.

(** [DECODE_FRAME_IMAGE.get(comp.tag, unsupported_frame_comp)] *)
Definition handler_of (tag : string) : Handler :=
  default (fun ctx data => Ok (unsupported_frame_comp ctx data)) (DECODE_FRAME_IMAGE tag).

(** The inner loop of [generate_frames], over [frame.children]. *)
Fixpoint decode_children (ctx : FrameGenCtx) (comps : list Element) : res FrameGenCtx :=
  match comps with
  | [] => Ok ctx
  | comp :: rest =>
      ctx ← handler_of (tag comp) ctx (data comp);
      decode_children ctx rest
  end.

(** The outer loop of [generate_frames], started with the context [ctx]:
    the contexts yielded, and the exception that ends the generator. *)
Fixpoint frames_loop (ctx : FrameGenCtx) (frames : list Element)
  : list FrameGenCtx * option Exception :=
  match frames with
  | [] => ([], None)
  | frame :: rest =>
      let ctx := replace_frame ctx (Some frame) in
      match decode_children ctx (children frame) with
      | Raise e => ([], Some e)
      | Ok ctx =>
          match screen ctx with
          | None => ([], Some AssertionError)
          | Some _ =>
              let '(yielded, e) := frames_loop ctx rest in
              (ctx :: yielded, e)
          end
      end
  end.

(** [FrameGenCtx(header.palette)]: the other fields take their defaults. *)
Definition FrameGenCtx_init (header_palette : list Z) : FrameGenCtx :=
  {| palette := header_palette;
     screen := Some (ImagePosition_default, []);
     delta_pal := [];
     frame := None |}.

(** [generate_frames(header, frames, parser)]: of [header] only the palette
    is read, and [parser] is not used, the loop reads the module-level
    [DECODE_FRAME_IMAGE]. *)
Definition generate_frames (header_palette : list Z) (frames : list Element)
  : list FrameGenCtx * option Exception :=
  frames_loop (FrameGenCtx_init header_palette) frames.

(** ** Output stages *)

Section Saving.

(** [decode_san], after [anim.parse] has produced the header and the frames.
    The three calls that build and write one image
    ([save_single_frame_image], [putpalette], [save]) are outside this file
    and are taken together as [save_frame idx screen palette]. A screen is
    a pair, which is true in a condition; [None] is false. The result lists
    the indices of the images written, in order, and the exception that
    ends the function, if any. *)
Variable save_frame : nat -> Screen -> list Z -> res unit.

Fixpoint decode_san_loop (idx : nat) (yielded : list FrameGenCtx)
    (ending : option Exception) : list nat * option Exception :=
  match yielded with
  | [] => ([], ending)
  | ctx :: yielded =>
      match screen ctx with
      | Some scr =>
          match
            (_ ← assert (negb (bool_decide (palette ctx = [])));
             save_frame idx scr (palette ctx))
          with
          | Raise e => ([], Some e)
          | Ok _ =>
              let '(written, e) := decode_san_loop (S idx) yielded ending in
              (idx :: written, e)
          end
      | None => decode_san_loop (S idx) yielded ending
      end
  end.

Definition decode_san (header_palette : list Z) (frames : list Element)
  : list nat * option Exception :=
  let '(yielded, ending) := generate_frames header_palette frames in
  decode_san_loop 0 yielded ending.

End Saving.

End Collaborators.

(** In [decode_nut]: [palette = list(header.palette)] followed by the slice
    assignment [palette[3 * 39 : 3 * 39 + 3] = [109, 109, 109]]. *)
Definition nut_palette (header_palette : list Z) : list Z :=
  take (3 * 39) header_palette ++ [109; 109; 109] ++ drop (3 * 39 + 3) header_palette.

(** No component is a palette chunk. *)
Definition no_palette_chunk (comps : list Element) : Prop :=
  Forall (fun comp => tag comp <> "NPAL" /\ tag comp <> "XPAL") comps.

(** No component has a tag of [DECODE_FRAME_IMAGE]. *)
Definition unrecognized (comps : list Element) : Prop :=
  Forall (fun comp => tag comp <> "NPAL" /\ tag comp <> "XPAL" /\
                      tag comp <> "ZFOB" /\ tag comp <> "FOBJ") comps.

End Decode.

(** * core/index.py *)

Module Index.

(** ** Streams *)

(** Modelled from the spec: [StreamView] is defined in [core/stream.py],
    which is not part of the sources at hand. It is a read-only window
    [(start, span)] over a shared buffer with a cursor of its own, counted
    from the start of the window; reading advances the cursor, seeking
    sets it. *)
Record StreamView : Type := mkStreamView {
  buffer : bytes;
  start : nat;
  span : nat;
  cursor : nat
}.

(** The bytes the window covers. *)
Definition window (v : StreamView) : bytes :=
  take (span v) (drop (start v) (buffer v)).

(** Modelled from the spec: [StreamView.seek(pos)], an absolute position
    in the window. *)
Definition StreamView_seek (pos : nat) (v : StreamView) : StreamView :=
  {| buffer := buffer v; start := start v; span := span v; cursor := pos |}.

(** Modelled from the spec: [StreamView.read(size=-1)]; a missing or
    negative size reads up to the end of the window. *)
Definition StreamView_read (size : option Z) (v : StreamView) : bytes * StreamView :=
  let rest := drop (cursor v) (window v) in
  let out :=
    match size with
    | Some n => if n <? 0 then rest else take (Z.to_nat n) rest
    | None => rest
    end in
  (out, StreamView_seek (cursor v + length out)%nat v).

(** ** Elements *)

(** The [attribs] dictionary: keys ['offset'], ['size'] and ['gid']. *)
Record Attribs : Type := mkAttribs {
  attr_offset : Z;
  attr_size : Z;
  attr_gid : option string
}.

Inductive Element : Type := mkElement {
  tag : string;
  attribs : Attribs;
  children : list Element;
  _stream : StreamView
}.

(** [Element.read]: the optional size argument is passed on to the view.
    The view is an object the element refers to: its state after the call
    is returned with the bytes. *)
Definition Element_read (size : option Z) (self : Element) : bytes * Element :=
  let s := StreamView_seek 0 (_stream self) in
  let '(out, s) := StreamView_read size s in
  (out, {| tag := tag self; attribs := attribs self;
           children := children self; _stream := s |}).

(** ** What the chunk reader finds *)

(** [read_chunks] is imported from [core/resource.py], outside the sources
    at hand. What it does on a stream is carried by the stream itself: read
    from cursor position [p], it yields the records [read_chunks_at p]
    (offset, tag, payload), in this order, and then either stops or raises
    the error [read_failure_at p]. A payload is a stream again. *)
Inductive Data : Type := mkData {
  view : StreamView;
  read_chunks_at : nat -> list (Z * (string * Data));
  read_failure_at : nat -> option string
}.

(** [data.tell()] and [data.seek(pos, io.SEEK_SET)] *)
Definition tell (data : Data) : nat := cursor (view data).

Definition seek (pos : nat) (data : Data) : Data :=
  {| view := StreamView_seek pos (view data);
     read_chunks_at := read_chunks_at data;
     read_failure_at := read_failure_at data |}.

Definition read_chunks (data : Data) : list (Z * (string * Data)) :=
  read_chunks_at data (tell data).

Definition read_failure (data : Data) : option string :=
  read_failure_at data (tell data).

(** ** Schemas *)

(** A member of a child set is a tag or, in [DUMMY], the integer 10.
    Keys are tags; the key [None] appears when a failure is blamed on the
    top level. *)
Abbreviation Member := (string + Z)%type.
Abbreviation Schema := (gmap (option string) (gset Member)).

Definition DATA : gset Member := ∅.
Definition DUMMY : gset Member := {[ inr 10 ]}.

(** ** Exceptions *)

(** The last argument of [MissingSchemaKey] and [OtherException] is the
    [ptag] attribute: [None] while the exception has none, [Some p] once
    [exception_ptag_context] has set it to [p] (which may be Python's
    [None]). [MissingSchemaEntry] has the attribute from its constructor. *)
Inductive Exception : Type :=
| MissingSchemaKey (tag : string) (ptag : option (option string))
| MissingSchemaEntry (ptag : option string) (tag : string)
| OtherException (what : string) (ptag : option (option string)).

(** [hasattr(e, 'ptag')] and [e.ptag] *)
Definition ptag_attr (e : Exception) : option (option string) :=
  match e with
  | MissingSchemaKey _ p => p
  | MissingSchemaEntry p _ => Some p
  | OtherException _ p => p
  end.

Definition exception_ptag_context (ptag : option string) (e : Exception) : Exception :=
  match e with
  | MissingSchemaKey t None => MissingSchemaKey t (Some ptag)
  | OtherException w None => OtherException w (Some ptag)
  | _ => e
  end.

(** Truth value of a tag ([None] and the empty string are false) and of
    [schema.get(tag)] ([None] and the empty set are false). *)
Definition truthy_tag (t : option string) : bool :=
  match t with
  | Some s => negb (bool_decide (s = ""))
  | None => false
  end.

Definition truthy_entry (schema : Schema) (t : string) : bool :=
  match schema !! Some t with
  | Some tags => negb (bool_decide (tags = ∅))
  | None => false
  end.

(** [schema_check]: the exception, if any, that is in flight when the
    context manager yields in its [finally] clause. The body of the [with]
    statement runs first; the exception is raised when the body is left
    normally. A [KeyError] from [schema[ptag]] is not caught by the
    [except] clause, whatever [strict] is. *)
Definition schema_check (schema : Schema) (ptag : option string) (tag : string)
    (strict : bool) : option Exception :=
  let key_check :=
    if bool_decide (is_Some (schema !! Some tag)) then None
    else if strict then Some (MissingSchemaKey tag None) else None in
  if truthy_tag ptag then
    match schema !! ptag with
    | None => Some (OtherException "KeyError" None)
    | Some tags =>
        if bool_decide (inl tag ∈ tags) then key_check
        else if strict then Some (MissingSchemaEntry ptag tag) else None
    end
  else key_check.

Section Walk.

Variable schema : Schema.
Variable strict : bool.

(** [create_element] with the default, empty [idgen]: no identifier is
    generated. [children_of] is the recursive call to [map_chunks] on the
    payload; [list(...)] keeps the elements only if the generator ends
    without an exception. *)
Definition create_element
    (children_of : option string -> Data -> list Element * option Exception)
    (tag : string) (offset : Z) (data : Data) : result Exception Element :=
  kids ←
    (if truthy_entry schema tag then
       match children_of (Some tag) data with
       | (kids, None) => Ok kids
       | (_, Some e) => Raise e
       end
     else Ok []);
  Ok {| tag := tag;
        attribs := {| attr_offset := offset;
                      attr_size := Z.of_nat (span (view data));
                      attr_gid := None |};
        children := kids;
        _stream := view data |}.

(** [map_chunks]: the elements yielded and the exception that ends the
    generator, if any. *)
Fixpoint map_chunks (ptag : option string) (data : Data) {struct data}
  : list Element * option Exception :=
  let fix each (chunks : list (Z * (string * Data))) : list Element * option Exception :=
    match chunks with
    | [] => ([], (fun w => OtherException w None) <$> read_failure data)
    | (hoff, (tag, chunk)) :: chunks =>
        let pending := schema_check schema ptag tag strict in
        match create_element map_chunks tag hoff chunk with
        | Raise e => ([], Some e)
        | Ok element =>
            match pending with
            | Some e => ([element], Some e)
            | None => let '(rest, e) := each chunks in (element :: rest, e)
            end
        end
    end in
  let '(elements, e) := each (read_chunks data) in
  (elements, exception_ptag_context ptag <$> e).

End Walk.

(** ** Schema inference *)

(** What leaves [generate_schema] other than a schema. *)
Inductive Uncaught : Type :=
| ValueError
| AssertionError
| KeyError (key : option string).

(** The three [except] clauses: the schema to retry with, or the exception
    raised from the handler. *)
Definition refine (schema : Schema) (e : Exception) : result Uncaught Schema :=
  match e with
  | MissingSchemaKey tag _ => Ok (<[Some tag := DUMMY]> schema)
  | MissingSchemaEntry ptag tag =>
      match schema !! ptag with
      | None => Raise (KeyError ptag)
      | Some tags => Ok (<[ptag := (tags ∖ DUMMY) ∪ {[ inl tag ]}]> schema)
      end
  | OtherException _ attr =>
      match attr with
      | None => Raise AssertionError
      | Some ptag =>
          if bool_decide (schema !! ptag = Some DATA) then Raise ValueError
          else Ok (<[ptag := DATA]> schema)
      end
  end.

(** The dictionary returned on success. *)
Definition finalize (schema : Schema) : Schema :=
  filter (fun entry => entry.2 ≠ DUMMY) schema.

(** The [while True] loop, with a bound on the number of attempts; [None]
    means the bound was reached. The cursor an attempt leaves behind is
    never read: every attempt starts with a seek to [pos]. *)
Fixpoint generate_schema_loop (attempts : nat) (pos : nat) (data : Data) (schema : Schema)
  : option (result Uncaught Schema) :=
  match attempts with
  | O => None
  | S attempts =>
      let data := seek pos data in
      match map_chunks schema true None data with
      | (_, None) => Some (Ok (finalize schema))
      | (_, Some e) =>
          match refine schema e with
          | Raise u => Some (Raise u)
          | Ok schema => generate_schema_loop attempts pos data schema
          end
      end
  end.

Definition generate_schema (attempts : nat) (data : Data) : option (result Uncaught Schema) :=
  let schema : Schema := ∅ in
  let pos := tell data in
  generate_schema_loop attempts pos data schema.

(** ** Vocabulary for the properties *)

(** The exception that ends the strict walk started at [pos], if any. *)
Definition attempt (data : Data) (pos : nat) (schema : Schema) : option Exception :=
  (map_chunks schema true None (seek pos data)).2.

(** One turn of the loop that ends in a retry: the walk raises [e] and the
    handler goes on with [schema']. *)
Definition retry_on (data : Data) (pos : nat) (schema : Schema) (e : Exception)
    (schema' : Schema) : Prop :=
  attempt data pos schema = Some e /\ refine schema e = Ok schema'.

Definition retry (data : Data) (pos : nat) (schema schema' : Schema) : Prop :=
  exists e, retry_on data pos schema e schema'.

(** Every tag of [tags] is in [tags']; the sentinel 10 is not a tag. *)
Definition child_tags_kept (tags tags' : gset Member) : Prop :=
  forall t : string, inl t ∈ tags -> inl t ∈ tags'.

(** Between [schema] and [schema'] some retry was caused by a failure
    blamed on [k] that is neither of the two schema signals. *)
Definition demoted_between (data : Data) (pos : nat) (schema schema' : Schema)
    (k : option string) : Prop :=
  exists before after what,
    rtc (retry data pos) schema before /\
    retry_on data pos before (OtherException what (Some k)) after /\
    rtc (retry data pos) after schema'.

(** The records of one stream, outside the recursion of [map_chunks]. *)
Fixpoint map_chunks_each (schema : Schema) (strict : bool) (ptag : option string)
    (failure : option string) (chunks : list (Z * (string * Data)))
  : list Element * option Exception :=
  match chunks with
  | [] => ([], (fun w => OtherException w None) <$> failure)
  | (hoff, (tag, chunk)) :: chunks =>
      let pending := schema_check schema ptag tag strict in
      match create_element schema (map_chunks schema strict) tag hoff chunk with
      | Raise e => ([], Some e)
      | Ok element =>
          match pending with
          | Some e => ([element], Some e)
          | None =>
              let '(rest, e) := map_chunks_each schema strict ptag failure chunks in
              (element :: rest, e)
          end
      end
  end.

(** ** Searching the children of an element *)

Section Find.

(** [parse(tag, c.tag, evaluate_result=False)] comes from the [parse]
    package; [parse pattern text] tells whether it returns a match (any
    match object is true in a condition). An [Element] is a dataclass
    instance, true in a condition; only [None] is not. *)
Variable parse : string -> string -> bool.

Definition findall (tag : string) (root : option Element) : list Element :=
  match root with
  | None => []
  | Some root => List.filter (fun c => parse tag (Index.tag c)) (children root)
  end.

(** [next(findall(tag, root), None)] *)
Definition find (tag : string) (root : option Element) : option Element :=
  head (findall tag root).

End Find.

(** ** Printing the tree *)

(** ['    ' * level]: a negative count gives the empty string. *)
Fixpoint string_repeat (s : string) (n : nat) : string :=
  match n with
  | O => EmptyString
  | S n => s +:+ string_repeat s n
  end.

Definition indentation (level : Z) : string := string_repeat "    " (Z.to_nat level).

(** The double quote character. *)
Definition dquote : string := String (Ascii.ascii_of_nat 34) EmptyString.

(** The attributes of an element as [key="value"] items, each after a
    space, in the order of the dictionary [create_element] builds; an item
    whose value is [None] is left out. *)
Definition render_attribs (a : Attribs) : string :=
  (" offset=" +:+ dquote +:+ pretty (attr_offset a) +:+ dquote)
  +:+ (" size=" +:+ dquote +:+ pretty (attr_size a) +:+ dquote)
  +:+ match attr_gid a with
      | Some gid => " gid=" +:+ dquote +:+ gid +:+ dquote
      | None => EmptyString
      end.

(** [render], on an element that is there: the lines printed, in order. *)
Fixpoint render_element (element : Element) (level : Z) {struct element} : list string :=
  match element with
  | mkElement tag a kids _ =>
      let attribs := render_attribs a in
      let indent := indentation level in
      let closing := match kids with [] => " /" | _ => EmptyString end in
      (indent +:+ "<" +:+ tag +:+ attribs +:+ closing +:+ ">")
      :: match kids with
         | [] => []
         | _ => flat_map (fun c => render_element c (level + 1)) kids
                ++ [indent +:+ "</" +:+ tag +:+ ">"]
         end
  end.

(** [render(element, level)] *)
Definition render (element : option Element) (level : Z) : list string :=
  match element with
  | None => []
  | Some element => render_element element level
  end.

(** The number of elements of a tree, and of those that have children. *)
Fixpoint elements_in (element : Element) {struct element} : nat :=
  match element with
  | mkElement _ _ kids _ => S (list_sum (map elements_in kids))
  end.

Fixpoint containers_in (element : Element) {struct element} : nat :=
  match element with
  | mkElement _ _ kids _ =>
      ((match kids with [] => 0 | _ => 1 end) + list_sum (map containers_in kids))%nat
  end.

(** ** Vocabulary for the further properties *)

(** The tags the reader finds in a stream and, recursively, in the payloads,
    each read from the position of its cursor. *)
Fixpoint tags_of (data : Data) {struct data} : list string :=
  let fix each (chunks : list (Z * (string * Data))) : list string :=
    match chunks with
    | [] => []
    | (_, (tag, chunk)) :: chunks => tag :: tags_of chunk ++ each chunks
    end in
  each (read_chunks data).

(** The reader raises nowhere in the stream. *)
Fixpoint well_framed (data : Data) {struct data} : bool :=
  let fix each (chunks : list (Z * (string * Data))) : bool :=
    match chunks with
    | [] => true
    | (_, (_, chunk)) :: chunks => well_framed chunk && each chunks
    end in
  bool_decide (read_failure data = None) && each (read_chunks data).

(** An element and its descendants agree with the schema: every tag is a
    key, every tag below a true parent tag is in the set recorded for the
    parent. *)
Fixpoint conforms (schema : Schema) (ptag : option string) (element : Element)
    {struct element} : bool :=
  match element with
  | mkElement tag _ kids _ =>
      bool_decide (is_Some (schema !! Some tag))
      && (if truthy_tag ptag
          then match schema !! ptag with
               | Some tags => bool_decide (inl tag ∈ tags)
               | None => false
               end
          else true)
      && forallb (conforms schema (Some tag)) kids
  end.

(** An element and its descendants have children only under tags the
    schema records with a non-empty set. *)
Fixpoint licensed (schema : Schema) (element : Element) {struct element} : bool :=
  match element with
  | mkElement tag _ kids _ =>
      (bool_decide (kids = []) || truthy_entry schema tag)
      && forallb (licensed schema) kids
  end.

(** One yielded element corresponds to one record. *)
Definition mirrors (element : Element) (record : Z * (string * Data)) : Prop :=
  tag element = record.2.1 /\
  attr_offset (attribs element) = record.1 /\
  attr_size (attribs element) = Z.of_nat (span (view record.2.2)) /\
  _stream element = view record.2.2.

(** A parent tag a walk can be running under: the top level, or a tag of
    the stream that the schema records with a non-empty set. *)
Definition walked_under (tags : list string) (schema : Schema) (ptag : option string) : Prop :=
  ptag = None \/
  exists t, ptag = Some t /\ t ∈ tags /\ truthy_entry schema t = true.

(** What an exception of a walk refers to. *)
Definition refers_within (tags : list string) (schema : Schema) (e : Exception) : Prop :=
  match e with
  | MissingSchemaKey t _ => t ∈ tags
  | MissingSchemaEntry p t =>
      t ∈ tags /\ exists t', p = Some t' /\ t' ∈ tags /\ truthy_entry schema t' = true
  | OtherException _ attr => exists p, attr = Some p /\ walked_under tags schema p
  end.

(** Counting what a schema records, among the keys and the tags a stream
    can give rise to. *)
Definition stream_keys (tags : list string) : list (option string) :=
  None :: (Some <$> tags).

Definition is_leaf (schema : Schema) (k : option string) : bool :=
  bool_decide (schema !! k = Some ∅).

Definition is_key (schema : Schema) (k : option string) : bool :=
  bool_decide (is_Some (schema !! k)).

Definition is_entry (schema : Schema) (kt : option string * string) : bool :=
  match schema !! kt.1 with
  | Some recorded => bool_decide (inl kt.2 ∈ recorded)
  | None => false
  end.

Definition count {A} (f : A -> bool) (l : list A) : nat := length (List.filter f l).

(** How far a schema is from recording everything as a data leaf. *)
Definition distance (tags : list string) (schema : Schema) : nat :=
  let keys := stream_keys tags in
  let pairs := list_prod keys tags in
  (S (length pairs) * (length keys - count (is_leaf schema) keys)
   + (length keys - count (is_key schema) keys)
   + (length pairs - count (is_entry schema) pairs))%nat.

(** A recorded set is the sentinel or holds tags only. *)
Definition unmixed (recorded : gset Member) : Prop :=
  recorded = DUMMY \/ forall z : Z, inr z ∉ recorded.

(** A bound on the number of attempts of [generate_schema], from the
    number of tags in the stream. *)
Definition attempts_bound (data : Data) : nat :=
  let tags := length (tags_of (seek (tell data) data)) in
  let keys := S tags in
  let pairs := (keys * tags)%nat in
  S (S pairs * keys + keys + pairs).

End Index.

(** * core/chunk.py *)

Module ChunkPy.
Import Index.

(** [types.Chunk]: the named pair of a tag and its data; a pair is true
    in a condition, only [None] is not. *)
Definition Chunk : Type := string * StreamView.

Inductive Exception : Type :=
| ValueError (message : string).

Definition assert_tag (target : string) (chunk : option Chunk)
  : result Exception StreamView :=
  match chunk with
  | None => Raise (ValueError "no 4CC header")
  | Some (tag, data) =>
      if bool_decide (tag <> target)
      then Raise (ValueError ("expected tag to be " +:+ target +:+ " but got " +:+ tag))
      else Ok data
  end.

(** [print_chunks]: the pairs yielded and the lines printed, one before
    each pair. The length of the data is the span of its view. *)
Definition print_chunks (chunks : list (Z * Chunk)) (level base : Z)
  : list (Z * Chunk) * list string :=
  let indent := indentation level in
  ((fun oc => (base + oc.1, oc.2)) <$> chunks,
   (fun oc => indent +:+ pretty (base + oc.1) +:+ " " +:+ oc.2.1 +:+ " "
              +:+ pretty (Z.of_nat (span oc.2.2))) <$> chunks).

Definition drop_offsets (chunks : list (Z * Chunk)) : list Chunk := snd <$> chunks.

End ChunkPy.

(** * Sample inputs

    Concrete collaborators and inputs on which the definitions above are
    evaluated in the examples below. *)

Module StreamSamples.
Import Index.

Definition no_bytes : StreamView := mkStreamView [] 0 0 0.

(** A payload in which the reader finds nothing, and no error either. *)
Definition empty_payload : Data := mkData no_bytes (fun _ => []) (fun _ => None).

(** A payload that holds one chunk AAAA, and one the reader cannot split. *)
Definition one_child : Data :=
  mkData no_bytes (fun _ => [(0, ("AAAA", empty_payload))]) (fun _ => None).
Definition unreadable : Data :=
  mkData no_bytes (fun _ => []) (fun _ => Some "record runs past the buffer").

(** A stream with two PPPP chunks: the first holds a chunk, the second
    cannot be split into chunks. *)
Definition two_containers : Data :=
  mkData no_bytes
    (fun _ => [(0, ("PPPP", one_child)); (16, ("PPPP", unreadable))])
    (fun _ => None).

(** A stream with one chunk TTTT of empty payload. *)
Definition one_empty_chunk : Data :=
  mkData no_bytes (fun _ => [(0, ("TTTT", empty_payload))]) (fun _ => None).

(** The schemas the engine goes through on [two_containers]. *)
Definition learnt1 : Schema := {[ Some "PPPP" := DUMMY ]}.
Definition learnt2 : Schema := {[ Some "PPPP" := {[ inl "AAAA" ]} ]}.
Definition learnt3 : Schema := <[ Some "AAAA" := DUMMY ]> learnt2.
Definition learnt4 : Schema := <[ Some "PPPP" := DATA ]> learnt3.

(** A view of five bytes inside a buffer of eight, cursor at its end. *)
Definition five_of_eight : StreamView :=
  mkStreamView [x01; x02; x03; x04; x05; x06; x07; x08] 2 5 5.
Definition leaf_element : Element :=
  mkElement "DATA" (mkAttribs 2 5 None) [] five_of_eight.
End StreamSamples.

Module Samples.
Import Decode.

(** A frame-object parser that reads the codec from the first byte and
    reports an empty bounding box at the origin. *)
Definition unobj (datam : bytes) : res (fobj.FrameObjectHeader * bytes) :=
  match datam with
  | [] => Raise (ExternalError "unobj")
  | c :: pixels => Ok (fobj.mkFrameObjectHeader (byte_to_Z c) 0 0 0 0, pixels)
  end.

(** A registry that implements codec 1 only, as one row of pixels. *)
Definition get_decoder (codec : Z) : option (Z -> Z -> bytes -> res image.Matrix) :=
  if codec =? 1 then Some (fun _ _ pixels => Ok [byte_to_Z <$> pixels]) else None.

(** An inflater for payloads that are stored as they are. *)
Definition stored (compressed : bytes) : res bytes := Ok compressed.

Definition origin : image.ImagePosition := image.mkImagePosition 0 0 0 0.

Definition decode_frame_object := Decode.decode_frame_object unobj get_decoder.
Definition decode_compressed_frame_object :=
  Decode.decode_compressed_frame_object unobj get_decoder stored.
Definition decode_children := Decode.decode_children unobj get_decoder stored.
Definition generate_frames := Decode.generate_frames unobj get_decoder stored origin.

Definition gray_palette : list Z := repeat 128 768.
Definition ctx0 : FrameGenCtx := FrameGenCtx_init origin gray_palette.

(** A context whose palette and delta palette are populated. *)
Definition ctx_delta : FrameGenCtx :=
  {| palette := gray_palette; screen := screen ctx0;
     delta_pal := repeat (-300) 768; frame := None |}.

(** A frame object with codec 47, for which [get_decoder] has nothing. *)
Definition fobj47 : bytes := ["047"; "001"; "002"]%byte.
(** A frame object with codec 1 and two pixels. *)
Definition fobj1 : bytes := [x01; x07; x09].

Definition FRME (children : list Element) : Element := mkElement "FRME" children [].
Definition FOBJ (data : bytes) : Element := mkElement "FOBJ" [] data.
Definition FTCH : Element := mkElement "FTCH" [] [x00; x00].

Definition frames_loop := Decode.frames_loop unobj get_decoder stored.

(** Two frames: the first draws two pixels, the second has no pixel
    payload. *)
Definition two_frames : list Element := [FRME [FOBJ fobj1]; FRME [FTCH]].

Definition yielded_first : FrameGenCtx :=
  {| palette := gray_palette; screen := Some (origin, [[7; 9]]);
     delta_pal := []; frame := Some (FRME [FOBJ fobj1]) |}.

Definition yielded_second : FrameGenCtx :=
  {| palette := gray_palette; screen := Some (origin, [[7; 9]]);
     delta_pal := []; frame := Some (FRME [FTCH]) |}.
End Samples.

(** Further sample inputs. *)

Module ExtraSamples.
Import Decode.

(** A large delta-palette payload: the marker, 768 deltas of -1 (FF FF)
    and 768 palette bytes of value 16. *)
Definition large_xpal : bytes :=
  [x00; x00; x00; x02] ++ repeat xff 1536 ++ repeat x10 768.

(** A frame whose only pixel payload has codec 47, between two
    unrecognized components. *)
Definition undecodable_frame : Element :=
  Samples.FRME [Samples.FTCH; Samples.FOBJ Samples.fobj47; Samples.FTCH].
End ExtraSamples.

Module MoreStreams.
Import Index.

(** A stream with a chunk XXXX that cannot be split, followed by a chunk
    YYYY of empty payload. *)
Definition leaf_then_chunk : Data :=
  mkData StreamSamples.no_bytes
    (fun _ => [(0, ("XXXX", StreamSamples.unreadable));
               (12, ("YYYY", StreamSamples.empty_payload))])
    (fun _ => None).

Definition leaf_known : Schema := {[ Some "XXXX" := DATA ]}.
Definition leaf_and_chunk : Schema := <[ Some "YYYY" := DUMMY ]> leaf_known.

(** An element with two children, the second with a child of its own. *)
Definition grandchild : Element :=
  mkElement "FOBJ" (mkAttribs 24 4 None) [] StreamSamples.no_bytes.
Definition family : Element :=
  mkElement "ANIM" (mkAttribs 0 40 None)
    [ mkElement "AHDR" (mkAttribs 8 6 None) [] StreamSamples.no_bytes;
      mkElement "FRME" (mkAttribs 16 12 None) [grandchild] StreamSamples.no_bytes ]
    StreamSamples.no_bytes.
End MoreStreams.

(** * Properties of smush/decode.py *)

Section DecodeFacts.
Import Decode.

(** ** The delta-colour blend *)

Lemma clip_spec (lower upper value : Z) :
  lower <= upper -> clip lower upper value = Z.max lower (Z.min upper value).
Proof. unfold clip. intros Hle. repeat case_match; lia. Qed.

Lemma clip_byte_range (value : Z) : 0 <= clip_byte value <= 255.
Proof. unfold clip_byte, clip. repeat case_match; lia. Qed.

Lemma delta_color_range (org delta : Z) : 0 <= delta_color org delta <= 255.
Proof. apply clip_byte_range. Qed.

(** C5. For all integers [org_color] and [delta], [delta_color] is the
    floor [q] of [(129 * org_color + delta) / 128], clipped to [0..255]:
    the quotient is the integer [q] with
    [128 q <= 129 org_color + delta < 128 q + 128], also for negative sums,
    and the result is [clip 0 255 q], that is [max 0 (min 255 q)]. *)
Theorem delta_color_law (org_color delta : Z) :
  exists q : Z,
    128 * q <= 129 * org_color + delta < 128 * q + 128 /\
    delta_color org_color delta = clip 0 255 q /\
    delta_color org_color delta = Z.max 0 (Z.min 255 q).
Proof.
  exists ((129 * org_color + delta) / 128). split.
  - pose proof (Z.div_mod (129 * org_color + delta) 128 ltac:(lia)) as Hdm.
    pose proof (Z.mod_pos_bound (129 * org_color + delta) 128 ltac:(lia)) as Hb.
    lia.
  - split; [reflexivity |]. unfold delta_color, clip_byte. apply clip_spec. lia.
Qed.

(** The law at the two clipping boundaries (quotients -1 and 257) and
    at sums that do not divide evenly. *)
Example delta_color_below : delta_color 0 (-1) = 0.
Proof. reflexivity. Qed.

Example delta_color_above : delta_color 255 1 = 255.
Proof. reflexivity. Qed.

Example delta_color_floor : delta_color 1 (-2) = 0 /\ delta_color 2 (-1) = 2.
Proof. split; reflexivity. Qed.

(** ** The small delta-palette form *)

Ltac unbind := unfold mbind, result_bind, assert in *; simpl in *.

Lemma bytes_of_ints_delta_color (pal dpal : list Z) :
  bytes_of_ints (zip_with delta_color pal dpal) = Ok (zip_with delta_color pal dpal).
Proof.
  unfold bytes_of_ints.
  assert (forallb in_byte_range (zip_with delta_color pal dpal) = true) as ->; [| done].
  revert dpal. induction pal as [| p pal IH]; intros [| d dpal]; simpl; try done.
  rewrite IH, andb_true_r. unfold in_byte_range.
  pose proof (delta_color_range p d). apply andb_true_iff. split; lia.
Qed.

Lemma xpal_six (ctx : FrameGenCtx) (data : bytes) :
  length data = 6%nat ->
  xpal ctx data =
    (_ ← assert (bool_decide (data = SMALL_XPAL_MARK));
     _ ← assert (len (delta_pal ctx) =? 768);
     _ ← assert (len (palette ctx) =? 768);
     Ok (replace_palette ctx (zip_with delta_color (palette ctx) (delta_pal ctx)))).
Proof.
  intros Hlen. unfold xpal, len. rewrite Hlen. simpl.
  rewrite bytes_of_ints_delta_color. reflexivity.
Qed.

(** C6. On a 6-byte payload [xpal] raises unless the payload is the
    marker 00 00 00 01 00 00, raises unless [delta_pal] and [palette] both
    hold 768 entries, and otherwise returns the context with the palette
    replaced by the 768 values [delta_color palette[i] delta_pal[i]]. *)
Theorem xpal_small_form (ctx : FrameGenCtx) (data : bytes) :
  length data = 6%nat ->
  (data <> SMALL_XPAL_MARK -> xpal ctx data = Raise AssertionError) /\
  (length (delta_pal ctx) <> 768%nat \/ length (palette ctx) <> 768%nat ->
   xpal ctx data = Raise AssertionError) /\
  (data = SMALL_XPAL_MARK ->
   length (delta_pal ctx) = 768%nat -> length (palette ctx) = 768%nat ->
   exists new : list Z,
     xpal ctx data = Ok (replace_palette ctx new) /\
     length new = 768%nat /\
     forall i : nat, (i < 768)%nat ->
       exists p d : Z,
         palette ctx !! i = Some p /\ delta_pal ctx !! i = Some d /\
         new !! i = Some (delta_color p d)).
Proof.
  intros Hlen. rewrite (xpal_six ctx data Hlen). unfold len. split; [| split].
  - intros Hne. unbind. rewrite bool_decide_eq_false_2; done.
  - intros Hsz. unbind. case_bool_decide; [| done].
    destruct (Z.eqb_spec (Z.of_nat (length (delta_pal ctx))) 768); [| done].
    destruct (Z.eqb_spec (Z.of_nat (length (palette ctx))) 768); [| done].
    lia.
  - intros -> Hd Hp. unbind. rewrite Hd, Hp. simpl.
    exists (zip_with delta_color (palette ctx) (delta_pal ctx)).
    split; [done |]. split.
    + rewrite length_zip_with. lia.
    + intros i Hi.
      destruct (lookup_lt_is_Some_2 (palette ctx) i) as [p Hpi]; [lia |].
      destruct (lookup_lt_is_Some_2 (delta_pal ctx) i) as [d Hdi]; [lia |].
      exists p, d. rewrite lookup_zip_with, Hpi, Hdi. done.
Qed.

Lemma xpal_small_form_witness :
  exists new : list Z,
    xpal Samples.ctx_delta SMALL_XPAL_MARK = Ok (replace_palette Samples.ctx_delta new) /\
    length new = 768%nat /\
    forall i : nat, (i < 768)%nat ->
      exists p d : Z,
        palette Samples.ctx_delta !! i = Some p /\
        delta_pal Samples.ctx_delta !! i = Some d /\
        new !! i = Some (delta_color p d).
Proof.
  destruct (xpal_small_form Samples.ctx_delta SMALL_XPAL_MARK eq_refl) as (_ & _ & H).
  apply H; reflexivity.
Defined.

(** The blend on a gray palette darkened by 300:
    129 * 128 - 300 = 16212, of floor 126. *)
Example xpal_gray_sample :
  palette <$> xpal Samples.ctx_delta SMALL_XPAL_MARK = Ok (repeat 126 768).
Proof. vm_compute. reflexivity. Qed.

(** ** Pixel payloads *)

Lemma byte_to_Z_range (b : byte) : 0 <= byte_to_Z b < 256.
Proof. unfold byte_to_Z. pose proof (Byte.to_N_bounded b). lia. Qed.

Lemma lor_shiftl_low (a r k : Z) :
  0 <= k -> 0 <= r < 2 ^ k -> Z.lor (Z.shiftl a k) r = a * 2 ^ k + r.
Proof.
  intros Hk Hr. rewrite Z.shiftl_mul_pow2 by done.
  symmetry. apply Z.add_nocarry_lor. apply Z.bits_inj'. intros n Hn.
  rewrite Z.land_spec, Z.bits_0.
  destruct (Z.lt_ge_cases n k) as [Hlt | Hge].
  - by rewrite Z.mul_pow2_bits_low.
  - destruct (Z.eq_dec r 0) as [-> | Hnz]; [by rewrite Z.bits_0, andb_false_r |].
    rewrite (Z.bits_above_log2 r n), andb_false_r; [done | lia |].
    apply Z.lt_le_trans with k; [| done]. apply Z.log2_lt_pow2; lia.
Qed.

(** [be_uint32] is the base-256 number with the first byte as the most
    significant digit. *)
Lemma be_uint32_value (b0 b1 b2 b3 : byte) :
  be_uint32 b0 b1 b2 b3 =
    byte_to_Z b0 * 2 ^ 24 + byte_to_Z b1 * 2 ^ 16 + byte_to_Z b2 * 2 ^ 8 + byte_to_Z b3 /\
  0 <= be_uint32 b0 b1 b2 b3 < 2 ^ 32.
Proof.
  pose proof (byte_to_Z_range b0). pose proof (byte_to_Z_range b1).
  pose proof (byte_to_Z_range b2). pose proof (byte_to_Z_range b3).
  unfold be_uint32.
  rewrite (lor_shiftl_low (byte_to_Z b2) (byte_to_Z b3) 8) by lia.
  rewrite (lor_shiftl_low (byte_to_Z b1) _ 16) by lia.
  rewrite (lor_shiftl_low (byte_to_Z b0) _ 24) by lia.
  lia.
Qed.

Section Pipeline.

Context (unobj : bytes -> res (fobj.FrameObjectHeader * bytes))
        (get_decoder : Z -> option (Z -> Z -> bytes -> res image.Matrix))
        (zlib_decompress : bytes -> res bytes)
        (ImagePosition_default : image.ImagePosition).

Local Abbreviation convert_fobj := (Decode.convert_fobj unobj get_decoder).
Local Abbreviation decode_frame_object := (Decode.decode_frame_object unobj get_decoder).
Local Abbreviation decode_compressed_frame_object :=
  (Decode.decode_compressed_frame_object unobj get_decoder zlib_decompress).
Local Abbreviation handler_of := (Decode.handler_of unobj get_decoder zlib_decompress).
Local Abbreviation decode_children :=
  (Decode.decode_children unobj get_decoder zlib_decompress).
Local Abbreviation frames_loop := (Decode.frames_loop unobj get_decoder zlib_decompress).
Local Abbreviation generate_frames :=
  (Decode.generate_frames unobj get_decoder zlib_decompress ImagePosition_default).

(** C7. A compressed payload starts with its declared size, a
    big-endian unsigned 32-bit integer; the rest is inflated. If the
    inflated length differs from the declared size the handler raises;
    if it matches, the result is that of [decode_frame_object] on the
    inflated bytes and the same context. *)
Theorem compressed_frame_object_refines
    (ctx : FrameGenCtx) (b0 b1 b2 b3 : byte) (rest inflated : bytes) :
  zlib_decompress rest = Ok inflated ->
  let declared := be_uint32 b0 b1 b2 b3 in
  declared =
    byte_to_Z b0 * 2 ^ 24 + byte_to_Z b1 * 2 ^ 16 + byte_to_Z b2 * 2 ^ 8 + byte_to_Z b3 /\
  0 <= declared < 2 ^ 32 /\
  (len inflated <> declared ->
   decode_compressed_frame_object ctx (b0 :: b1 :: b2 :: b3 :: rest)
     = Raise AssertionError) /\
  (len inflated = declared ->
   decode_compressed_frame_object ctx (b0 :: b1 :: b2 :: b3 :: rest)
     = decode_frame_object ctx inflated).
Proof.
  intros Hz declared.
  destruct (be_uint32_value b0 b1 b2 b3) as [Hval Hrange].
  split; [exact Hval |]. split; [exact Hrange |].
  unfold Decode.decode_compressed_frame_object. simpl. unbind.
  rewrite drop_0, Hz.
  fold declared. split; intros Hlen.
  - by destruct (Z.eqb_spec (len inflated) declared).
  - by rewrite Hlen, Z.eqb_refl.
Qed.

(** A payload too short for the size field, or one the inflater
    rejects, raises before anything is decoded. *)
Lemma compressed_frame_object_short (ctx : FrameGenCtx) (data : bytes) :
  (length data < 4)%nat ->
  decode_compressed_frame_object ctx data = Raise StructError.
Proof.
  intros Hlen. unfold Decode.decode_compressed_frame_object.
  do 4 (destruct data as [| ? data]; [done |]). simpl in Hlen. lia.
Qed.

Lemma compressed_frame_object_corrupt
    (ctx : FrameGenCtx) (b0 b1 b2 b3 : byte) (rest : bytes) (e : Exception) :
  zlib_decompress rest = Raise e ->
  decode_compressed_frame_object ctx (b0 :: b1 :: b2 :: b3 :: rest) = Raise e.
Proof.
  intros Hz. unfold Decode.decode_compressed_frame_object. simpl. unbind.
  by rewrite drop_0, Hz.
Qed.

(** ** Unimplemented codecs *)

Lemma convert_fobj_unimplemented
    (datam pixels : bytes) (meta : fobj.FrameObjectHeader) :
  unobj datam = Ok (meta, pixels) ->
  get_decoder (fobj.codec meta) = None ->
  convert_fobj datam = Ok None.
Proof.
  intros Hu Hd. unfold Decode.convert_fobj. unbind. by rewrite Hu, Hd.
Qed.

(** C1, as the code has it. For a frame object whose header selects a
    codec without a decoder, [decode_frame_object] raises nothing and
    the fold goes on with the remaining chunks; the context it returns
    has its screen set to [None], the other fields being kept. *)
Theorem unimplemented_codec_soft_skip
    (ctx : FrameGenCtx) (datam pixels : bytes) (meta : fobj.FrameObjectHeader)
    (kids rest : list Element) :
  unobj datam = Ok (meta, pixels) ->
  get_decoder (fobj.codec meta) = None ->
  decode_frame_object ctx datam
    = Ok {| palette := palette ctx; screen := None;
            delta_pal := delta_pal ctx; frame := frame ctx |} /\
  decode_children ctx (mkElement "FOBJ" kids datam :: rest)
    = decode_children (replace_screen ctx None) rest.
Proof.
  intros Hu Hd.
  assert (decode_frame_object ctx datam = Ok (replace_screen ctx None)) as Hskip.
  { unfold Decode.decode_frame_object. unbind.
    by rewrite (convert_fobj_unimplemented datam pixels meta Hu Hd). }
  split; [exact Hskip |].
  simpl. unfold Decode.handler_of. simpl. unbind. by rewrite Hskip.
Qed.

(** ** The frame loop *)

Lemma xpal_screen (ctx ctx' : FrameGenCtx) (data : bytes) :
  xpal ctx data = Ok ctx' -> screen ctx' = screen ctx.
Proof.
  unfold xpal, unpack_le_h, bytes_of_ints. unbind. intros H.
  repeat (case_match; simplify_eq); done.
Qed.

Lemma handler_of_screen (comp : Element) (ctx ctx' : FrameGenCtx) :
  tag comp <> "FOBJ" -> tag comp <> "ZFOB" ->
  handler_of (tag comp) ctx (data comp) = Ok ctx' ->
  screen ctx' = screen ctx.
Proof.
  intros Hf Hz. unfold Decode.handler_of, DECODE_FRAME_IMAGE.
  repeat case_bool_decide; simpl; try done.
  - intros [= <-]. done.
  - apply xpal_screen.
  - intros [= <-]. done.
Qed.

Lemma decode_children_screen (comps : list Element) (ctx ctx' : FrameGenCtx) :
  no_pixel_payload comps ->
  decode_children ctx comps = Ok ctx' ->
  screen ctx' = screen ctx.
Proof.
  intros Hnp. revert ctx. induction Hnp as [| comp comps [Hf Hz] _ IH]; intros ctx.
  - by intros [= <-].
  - simpl. unbind.
    destruct (handler_of (tag comp) ctx (data comp)) as [ctx1 |] eqn:Hh; [| done].
    intros Hrest. rewrite (IH _ Hrest). by apply (handler_of_screen comp).
Qed.

Lemma frames_loop_cons (ctx ctx' : FrameGenCtx) (frame : Element) (rest : list Element) :
  decode_children (replace_frame ctx (Some frame)) (children frame) = Ok ctx' ->
  frames_loop ctx (frame :: rest) =
    match screen ctx' with
    | None => ([], Some AssertionError)
    | Some _ => (ctx' :: (frames_loop ctx' rest).1, (frames_loop ctx' rest).2)
    end.
Proof.
  intros Hd. simpl. rewrite Hd. destruct (screen ctx'); [| done].
  by destruct (frames_loop ctx' rest).
Qed.

(** C2, as the code has it. Once the children of a frame are folded
    without an exception, the generator raises exactly when the screen
    of the resulting context is [None], and yields that context
    otherwise; a frame without any FOBJ or ZFOB child ends with the
    screen it started with. *)
Theorem frame_end_check
    (ctx ctx' : FrameGenCtx) (frame : Element) (rest : list Element) :
  decode_children (replace_frame ctx (Some frame)) (children frame) = Ok ctx' ->
  (screen ctx' = None ->
   frames_loop ctx (frame :: rest) = ([], Some AssertionError)) /\
  (is_Some (screen ctx') ->
   exists yielded e, frames_loop ctx (frame :: rest) = (ctx' :: yielded, e)) /\
  (no_pixel_payload (children frame) -> screen ctx' = screen ctx).
Proof.
  intros Hd. rewrite (frames_loop_cons ctx ctx' frame rest Hd). split; [| split].
  - by intros ->.
  - intros [s ->]. eauto.
  - intros Hnp. by rewrite (decode_children_screen _ _ _ Hnp Hd).
Qed.

Lemma frames_loop_head
    (ctx c : FrameGenCtx) (frames : list Element) (ys : list FrameGenCtx)
    (e : option Exception) :
  frames_loop ctx frames = (c :: ys, e) ->
  exists frame rest,
    frames = frame :: rest /\
    decode_children (replace_frame ctx (Some frame)) (children frame) = Ok c /\
    frames_loop c rest = (ys, e).
Proof.
  destruct frames as [| frame rest]; [done |]. simpl.
  destruct (decode_children _ _) as [ctx' |] eqn:Hd; [| done].
  destruct (screen ctx'); [| done].
  destruct (frames_loop ctx' rest) as [ys' e'] eqn:Hl.
  intros [= -> -> ->]. eauto.
Qed.

Lemma frames_loop_next
    (frames : list Element) (ctx : FrameGenCtx) (ys : list FrameGenCtx)
    (e : option Exception) (i : nat) (c_prev c_next : FrameGenCtx) :
  frames_loop ctx frames = (ys, e) ->
  ys !! i = Some c_prev -> ys !! S i = Some c_next ->
  exists frame,
    frames !! S i = Some frame /\
    decode_children (replace_frame c_prev (Some frame)) (children frame) = Ok c_next.
Proof.
  revert frames ctx ys. induction i as [| i IH]; intros frames ctx ys Hl Hp Hn.
  - destruct ys as [| c ys]; [done |]. simplify_eq/=.
    apply frames_loop_head in Hl as (f0 & rest & -> & _ & Hl).
    destruct ys as [| c' ys]; [done |]. simplify_eq/=.
    apply frames_loop_head in Hl as (f1 & rest' & -> & Hd & _). eauto.
  - destruct ys as [| c ys]; [done |].
    apply frames_loop_head in Hl as (f0 & rest & -> & _ & Hl).
    simpl in Hp, Hn. destruct (IH rest c ys Hl Hp Hn) as (f & Hf & Hd). eauto.
Qed.

(** C10. The context is threaded across frames: the context yielded
    for a frame after the first is the fold of that frame's children
    started from the context yielded for the previous frame, in which
    only [frame] was replaced, so palette, delta palette and screen
    start as they were yielded; hence a frame without FOBJ or ZFOB child
    yields the screen of the previous frame. *)
Theorem frame_context_threaded
    (header_palette : list Z) (frames : list Element) (ys : list FrameGenCtx)
    (e : option Exception) (i : nat) (c_prev c_next : FrameGenCtx) :
  generate_frames header_palette frames = (ys, e) ->
  ys !! i = Some c_prev -> ys !! S i = Some c_next ->
  exists frame start,
    frames !! S i = Some frame /\
    start = replace_frame c_prev (Some frame) /\
    palette start = palette c_prev /\
    delta_pal start = delta_pal c_prev /\
    screen start = screen c_prev /\
    decode_children start (children frame) = Ok c_next /\
    (no_pixel_payload (children frame) -> screen c_next = screen c_prev).
Proof.
  intros Hg Hp Hn. unfold Decode.generate_frames in Hg.
  destruct (frames_loop_next _ _ _ _ _ _ _ Hg Hp Hn) as (frame & Hf & Hd).
  exists frame, (replace_frame c_prev (Some frame)).
  repeat split; try done.
  intros Hnp. by rewrite (decode_children_screen _ _ _ Hnp Hd).
Qed.

End Pipeline.

Lemma compressed_frame_object_refines_witness :
  Samples.decode_compressed_frame_object Samples.ctx0
    ([x00; x00; x00; x03] ++ Samples.fobj1)
  = Samples.decode_frame_object Samples.ctx0 Samples.fobj1.
Proof.
  apply (compressed_frame_object_refines Samples.unobj Samples.get_decoder
           Samples.stored Samples.ctx0 x00 x00 x00 x03 Samples.fobj1 Samples.fobj1
           eq_refl).
  reflexivity.
Defined.

(** ** The pipeline on sample frames *)

Lemma unimplemented_codec_soft_skip_witness :
  Samples.decode_frame_object Samples.ctx0 Samples.fobj47
    = Ok {| palette := palette Samples.ctx0; screen := None;
            delta_pal := delta_pal Samples.ctx0; frame := frame Samples.ctx0 |} /\
  Samples.decode_children Samples.ctx0 [Samples.FOBJ Samples.fobj47; Samples.FTCH]
    = Samples.decode_children (replace_screen Samples.ctx0 None) [Samples.FTCH].
Proof.
  apply (unimplemented_codec_soft_skip Samples.unobj Samples.get_decoder Samples.stored
           Samples.ctx0 Samples.fobj47 [x01; x02]
           (fobj.mkFrameObjectHeader 47 0 0 0 0) [] [Samples.FTCH]);
    reflexivity.
Defined.

(** C1 fails as stated: the header of [fobj47] selects codec 47, which
    has no decoder; the context before the chunk has a screen, the context
    after it has none. *)
Lemma unimplemented_codec_clears_screen :
  Samples.unobj Samples.fobj47 = Ok (fobj.mkFrameObjectHeader 47 0 0 0 0, [x01; x02]) /\
  Samples.get_decoder 47 = None /\
  screen Samples.ctx0 = Some (Samples.origin, []) /\
  screen <$> Samples.decode_frame_object Samples.ctx0 Samples.fobj47 = Ok None /\
  screen <$> Samples.decode_frame_object Samples.ctx0 Samples.fobj47
    <> Ok (screen Samples.ctx0).
Proof. repeat split; try reflexivity. vm_compute. discriminate. Qed.

Lemma frame_end_check_witness :
  Samples.frames_loop Samples.ctx0 [Samples.FRME [Samples.FOBJ Samples.fobj47]]
    = ([], Some AssertionError).
Proof.
  apply (frame_end_check Samples.unobj Samples.get_decoder Samples.stored
           Samples.ctx0
           (replace_screen
              (replace_frame Samples.ctx0
                 (Some (Samples.FRME [Samples.FOBJ Samples.fobj47]))) None)
           (Samples.FRME [Samples.FOBJ Samples.fobj47]) []);
    reflexivity.
Defined.

(** C2 fails as stated: a frame without any child is yielded, with the
    screen the context was created with, and the generator ends without
    an exception. *)
Lemma empty_frame_is_yielded :
  children (Samples.FRME []) = [] /\
  Samples.generate_frames Samples.gray_palette [Samples.FRME []]
    = ([ {| palette := Samples.gray_palette;
            screen := Some (Samples.origin, []);
            delta_pal := [];
            frame := Some (Samples.FRME []) |} ], None).
Proof. split; reflexivity. Qed.

Lemma frame_context_threaded_witness :
  exists frame start,
    Samples.two_frames !! 1%nat = Some frame /\
    start = replace_frame Samples.yielded_first (Some frame) /\
    palette start = palette Samples.yielded_first /\
    delta_pal start = delta_pal Samples.yielded_first /\
    screen start = screen Samples.yielded_first /\
    Samples.decode_children start (children frame) = Ok Samples.yielded_second /\
    (no_pixel_payload (children frame) ->
     screen Samples.yielded_second = screen Samples.yielded_first).
Proof.
  apply (frame_context_threaded Samples.unobj Samples.get_decoder Samples.stored
           Samples.origin Samples.gray_palette Samples.two_frames
           [Samples.yielded_first; Samples.yielded_second] None 0);
    reflexivity.
Defined.

(** The second sample frame has no pixel payload and is yielded with the
    pixels of the first. *)
Example second_frame_keeps_screen :
  screen <$> (Samples.generate_frames Samples.gray_palette Samples.two_frames).1
    = [Some (Samples.origin, [[7; 9]]); Some (Samples.origin, [[7; 9]])].
Proof. reflexivity. Qed.

End DecodeFacts.

(** * Properties of core/index.py *)

Section IndexFacts.
Import Index.

(** ** Reading an element *)

Lemma window_seek (pos : nat) (v : StreamView) :
  window (StreamView_seek pos v) = window v.
Proof. reflexivity. Qed.

(** C9. [Element.read] first puts the cursor of the view at 0, the
    start of the element's payload; what it returns is the payload, cut to
    the size asked for, whatever the cursor was; a second call with the
    same argument returns the same bytes. *)
Theorem Element_read_idempotent (self : Element) (size : option Z) :
  let payload := window (_stream self) in
  let expected :=
    match size with
    | Some n => if n <? 0 then payload else take (Z.to_nat n) payload
    | None => payload
    end in
  cursor (StreamView_seek 0 (_stream self)) = 0%nat /\
  (Element_read size self).1 = expected /\
  (Element_read size (Element_read size self).2).1 = (Element_read size self).1 /\
  forall c : nat,
    (Element_read size
       {| tag := tag self; attribs := attribs self; children := children self;
          _stream := StreamView_seek c (_stream self) |}).1
    = (Element_read size self).1.
Proof.
  unfold Element_read, StreamView_read. simpl. rewrite !window_seek, !drop_0.
  repeat split.
Qed.

Example Element_read_sample :
  (Element_read (Some 3) StreamSamples.leaf_element).1 = [x03; x04; x05] /\
  cursor (_stream (Element_read (Some 3) StreamSamples.leaf_element).2) = 3%nat /\
  (Element_read None StreamSamples.leaf_element).1 = [x03; x04; x05; x06; x07].
Proof. repeat split. Qed.

(** ** The strict walk *)

(** Induction on streams, with the hypothesis for every payload the
    reader may find. *)
Lemma Data_payload_ind (P : Data -> Prop) :
  (forall v records failures,
      (forall p, Forall (fun record => P record.2.2) (records p)) ->
      P (mkData v records failures)) ->
  forall data, P data.
Proof.
  intros Hstep. fix IH 1. intros [v records failures]. apply Hstep. intros p.
  induction (records p) as [| [hoff [t chunk]] chunks IHchunks]; constructor.
  - apply IH.
  - apply IHchunks.
Qed.

Lemma map_chunks_unfold (schema : Schema) (strict : bool) (ptag : option string)
    (data : Data) :
  map_chunks schema strict ptag data =
    ((map_chunks_each schema strict ptag (read_failure data) (read_chunks data)).1,
     exception_ptag_context ptag
       <$> (map_chunks_each schema strict ptag (read_failure data) (read_chunks data)).2).
Proof.
  destruct data as [v records failures]. simpl.
  unfold read_chunks, read_failure, tell. simpl.
  generalize (records (cursor v)) as chunks.
  assert (forall chunks,
    (fix each (chunks : list (Z * (string * Data))) : list Element * option Exception :=
       match chunks with
       | [] => ([], (fun w => OtherException w None) <$> failures (cursor v))
       | (hoff, (tag, chunk)) :: chunks0 =>
           match create_element schema (map_chunks schema strict) tag hoff chunk with
           | Ok element =>
               match schema_check schema ptag tag strict with
               | Some e => ([element], Some e)
               | None => let '(rest, e) := each chunks0 in (element :: rest, e)
               end
           | Raise e => ([], Some e)
           end
       end) chunks
    = map_chunks_each schema strict ptag (failures (cursor v)) chunks) as Heach.
  { induction chunks as [| [hoff [t chunk]] chunks IHchunks]; [reflexivity |].
    simpl. rewrite IHchunks. reflexivity. }
  intros chunks. rewrite Heach. by destruct (map_chunks_each _ _ _ _ chunks).
Qed.

#[local] Arguments map_chunks : simpl never.

Lemma exception_ptag_context_key (ptag : option string) (e : Exception)
    (t : string) (attr : option (option string)) :
  exception_ptag_context ptag e = MissingSchemaKey t attr ->
  exists attr', e = MissingSchemaKey t attr'.
Proof. destruct e as [t' [a |] | p t' | w [a |]]; simpl; intros [=]; subst; eauto. Qed.

Lemma schema_check_key (schema : Schema) (strict : bool) (ptag : option string)
    (tag t : string) (attr : option (option string)) :
  schema_check schema ptag tag strict = Some (MissingSchemaKey t attr) ->
  schema !! Some t = None.
Proof.
  unfold schema_check. intros H.
  repeat (case_match; simplify_eq); try done;
    case_bool_decide as Hk; simplify_eq;
    destruct (schema !! Some t) eqn:Hl; try done; by destruct Hk.
Qed.

(** A missing key is only reported for a tag that is not a key of the
    schema the walk was given. *)
Lemma map_chunks_missing_key (schema : Schema) (strict : bool) (data : Data) :
  forall (ptag : option string) (t : string) (attr : option (option string)),
    (map_chunks schema strict ptag data).2 = Some (MissingSchemaKey t attr) ->
    schema !! Some t = None.
Proof.
  induction data as [v records failures IH] using Data_payload_ind.
  intros ptag t attr. rewrite map_chunks_unfold. simpl.
  unfold read_chunks, read_failure, tell. simpl.
  destruct (map_chunks_each _ _ _ _ _).2 as [e |] eqn:Hwalk; [| done].
  simpl. intros [= He]. apply exception_ptag_context_key in He as [attr' ->].
  clear attr. revert Hwalk. specialize (IH (cursor v)).
  induction IH as [| [hoff [tag chunk]] chunks Hchunk _ IHchunks]; simpl.
  - by destruct (failures (cursor v)).
  - simpl in Hchunk. unfold create_element. unfold mbind, result_bind.
    destruct (truthy_entry schema tag).
    + destruct (map_chunks schema strict (Some tag) chunk) as [kids [e |]] eqn:Hsub.
      * simpl. intros [= ->]. apply (Hchunk (Some tag) t attr'). by rewrite Hsub.
      * destruct (schema_check schema ptag tag strict) as [e |] eqn:Hcheck.
        -- simpl. intros [= ->]. by apply schema_check_key in Hcheck.
        -- destruct (map_chunks_each _ _ _ _ chunks). apply IHchunks.
    + destruct (schema_check schema ptag tag strict) as [e |] eqn:Hcheck.
      * simpl. intros [= ->]. by apply schema_check_key in Hcheck.
      * destruct (map_chunks_each _ _ _ _ chunks). apply IHchunks.
Qed.

Lemma exception_ptag_context_entry (ptag p : option string) (e : Exception) (t : string) :
  exception_ptag_context ptag e = MissingSchemaEntry p t -> e = MissingSchemaEntry p t.
Proof. destruct e as [t' [a |] | p' t' | w [a |]]; simpl; intros [=]; by subst. Qed.

Lemma exception_ptag_context_attr (ptag : option string) (e : Exception) :
  is_Some (ptag_attr (exception_ptag_context ptag e)).
Proof. destruct e as [t' [a |] | p' t' | w [a |]]; simpl; by eexists. Qed.

Lemma schema_check_entry (schema : Schema) (strict : bool) (ptag p : option string)
    (tag t : string) :
  schema_check schema ptag tag strict = Some (MissingSchemaEntry p t) ->
  exists tags, schema !! p = Some tags /\ inl t ∉ tags.
Proof.
  unfold schema_check. intros H.
  repeat (case_match; simplify_eq); try done.
  case_bool_decide; [done |]. eauto.
Qed.

(** A missing entry is only reported for a parent that is a key of the
    schema, and for a tag that is not in the set recorded for it. *)
Lemma map_chunks_missing_entry (schema : Schema) (strict : bool) (data : Data) :
  forall (ptag p : option string) (t : string),
    (map_chunks schema strict ptag data).2 = Some (MissingSchemaEntry p t) ->
    exists tags, schema !! p = Some tags /\ inl t ∉ tags.
Proof.
  induction data as [v records failures IH] using Data_payload_ind.
  intros ptag p t. rewrite map_chunks_unfold. simpl.
  unfold read_chunks, read_failure, tell. simpl.
  destruct (map_chunks_each _ _ _ _ _).2 as [e |] eqn:Hwalk; [| done].
  simpl. intros [= He]. apply exception_ptag_context_entry in He as ->.
  revert Hwalk. specialize (IH (cursor v)).
  induction IH as [| [hoff [tag chunk]] chunks Hchunk _ IHchunks]; simpl.
  - by destruct (failures (cursor v)).
  - simpl in Hchunk. unfold create_element. unfold mbind, result_bind.
    destruct (truthy_entry schema tag).
    + destruct (map_chunks schema strict (Some tag) chunk) as [kids [e |]] eqn:Hsub.
      * simpl. intros [= ->]. apply (Hchunk (Some tag) p t). by rewrite Hsub.
      * destruct (schema_check schema ptag tag strict) as [e |] eqn:Hcheck.
        -- simpl. intros [= ->]. by apply schema_check_entry in Hcheck.
        -- destruct (map_chunks_each _ _ _ _ chunks). apply IHchunks.
    + destruct (schema_check schema ptag tag strict) as [e |] eqn:Hcheck.
      * simpl. intros [= ->]. by apply schema_check_entry in Hcheck.
      * destruct (map_chunks_each _ _ _ _ chunks). apply IHchunks.
Qed.

(** Every exception that leaves a walk carries a [ptag] attribute. *)
Lemma map_chunks_ptag_attr (schema : Schema) (strict : bool) (ptag : option string)
    (data : Data) (e : Exception) :
  (map_chunks schema strict ptag data).2 = Some e -> is_Some (ptag_attr e).
Proof.
  rewrite map_chunks_unfold. simpl.
  destruct (map_chunks_each _ _ _ _ _).2 as [e' |]; [| done].
  simpl. intros [= <-]. apply exception_ptag_context_attr.
Qed.

(** ** The retry loop *)

Lemma seek_seek (pos pos' : nat) (data : Data) :
  seek pos (seek pos' data) = seek pos data.
Proof. reflexivity. Qed.

(** The loop does not depend on where the cursor is when a turn starts:
    every turn walks the stream again from [pos]. *)
Lemma generate_schema_loop_seek (attempts pos pos' : nat) (data : Data) (schema : Schema) :
  generate_schema_loop attempts pos (seek pos' data) schema
  = generate_schema_loop attempts pos data schema.
Proof. destruct attempts; [done |]. simpl. by rewrite seek_seek. Qed.

Lemma generate_schema_loop_step (attempts pos : nat) (data : Data) (schema : Schema) :
  generate_schema_loop (S attempts) pos data schema =
    match attempt data pos schema with
    | None => Some (Ok (finalize schema))
    | Some e =>
        match refine schema e with
        | Raise u => Some (Raise u)
        | Ok schema' => generate_schema_loop attempts pos data schema'
        end
    end.
Proof.
  simpl. unfold attempt. destruct (map_chunks schema true None (seek pos data)) as [ys [e |]].
  - simpl. destruct (refine schema e); [| done]. apply generate_schema_loop_seek.
  - done.
Qed.

(** X26. The handlers never fail on an exception raised by a walk, except
    with the [ValueError] of an unsatisfiable schema: the [KeyError] and the
    failed assertion of [refine] cannot occur. *)
Lemma generate_schema_loop_raises
    (attempts pos : nat) (data : Data) (schema : Schema) (u : Uncaught) :
  generate_schema_loop attempts pos data schema = Some (Raise u) -> u = ValueError.
Proof.
  revert schema. induction attempts as [| attempts IH]; intros schema; [done |].
  rewrite generate_schema_loop_step.
  destruct (attempt data pos schema) as [e |] eqn:Hwalk; [| done].
  destruct (refine schema e) as [schema' | u'] eqn:Href; [apply IH |].
  intros [= ->]. unfold attempt in Hwalk.
  destruct e as [t attr | p t | what attr]; simpl in Href.
  - done.
  - apply map_chunks_missing_entry in Hwalk as (tags & Hp & _).
    by rewrite Hp in Href.
  - apply map_chunks_ptag_attr in Hwalk as [p Hp]. simpl in Hp. subst attr.
    by case_bool_decide; simplify_eq.
Qed.

(** C8. When the strict walk fails with an exception that is neither of
    the two schema signals and is blamed on [t]: if the schema records [t]
    as a data leaf, the empty set, the engine raises [ValueError] and the
    loop ends; otherwise [t] is recorded as a data leaf and the loop takes
    its next turn, which walks the stream from [pos] again wherever the
    failed walk left the cursor. *)
Theorem structural_failure_handling
    (attempts pos : nat) (data : Data) (schema : Schema)
    (what : string) (t : option string) :
  attempt data pos schema = Some (OtherException what (Some t)) ->
  (schema !! t = Some DATA ->
   generate_schema_loop (S attempts) pos data schema = Some (Raise ValueError)) /\
  (schema !! t <> Some DATA ->
   generate_schema_loop (S attempts) pos data schema
     = generate_schema_loop attempts pos data (<[t := DATA]> schema) /\
   (<[t := DATA]> schema) !! t = Some ∅ /\
   forall left_at : nat,
     generate_schema_loop attempts pos (seek left_at data) (<[t := DATA]> schema)
     = generate_schema_loop attempts pos data (<[t := DATA]> schema)).
Proof.
  intros Hwalk. rewrite generate_schema_loop_step, Hwalk. simpl. split.
  - intros Hleaf. by rewrite bool_decide_eq_true_2.
  - intros Hnot. rewrite bool_decide_eq_false_2 by done.
    split; [done |]. split; [apply lookup_insert_eq |].
    intros left_at. apply generate_schema_loop_seek.
Qed.

(** ** What a retry does to the schema *)

Lemma refine_keeps_keys (schema schema' : Schema) (e : Exception) (k : option string) :
  refine schema e = Ok schema' -> is_Some (schema !! k) -> is_Some (schema' !! k).
Proof.
  intros Href Hk.
  assert (forall (j : option string) (tags : gset Member),
             is_Some (<[j := tags]> schema !! k)) as Hins.
  { intros j tags. destruct (decide (j = k)) as [-> |].
    - rewrite lookup_insert_eq. by eexists.
    - by rewrite lookup_insert_ne. }
  destruct e as [t attr | p t | what [p |]]; simpl in Href.
  - simplify_eq. apply Hins.
  - destruct (schema !! p); simplify_eq. apply Hins.
  - case_bool_decide; simplify_eq. apply Hins.
  - done.
Qed.

Lemma retry_on_children (data : Data) (pos : nat) (schema schema' : Schema)
    (e : Exception) (k : option string) (tags : gset Member) :
  retry_on data pos schema e schema' ->
  schema !! k = Some tags ->
  exists tags',
    schema' !! k = Some tags' /\
    (child_tags_kept tags tags' \/
     tags' = DATA /\ exists what, e = OtherException what (Some k)).
Proof.
  intros [Hwalk Href] Hk. destruct e as [t attr | p t | what [p |]]; simpl in Href.
  - apply map_chunks_missing_key in Hwalk. simplify_eq.
    exists tags. rewrite lookup_insert_ne by congruence. split; [done |]. left; by intros x Hx.
  - destruct (schema !! p) as [recorded |] eqn:Hp; simplify_eq.
    destruct (decide (k = p)) as [-> |].
    + simplify_eq. eexists. rewrite lookup_insert_eq. split; [done |].
      left. intros x Hx. unfold DUMMY. set_solver.
    + exists tags. rewrite lookup_insert_ne by done. split; [done |]. left; by intros x Hx.
  - case_bool_decide; simplify_eq. destruct (decide (k = p)) as [-> |].
    + exists DATA. rewrite lookup_insert_eq. split; [done |]. right. eauto.
    + exists tags. rewrite lookup_insert_ne by done. split; [done |]. left; by intros x Hx.
  - done.
Qed.

Lemma retries_keep_keys (data : Data) (pos : nat) (schema schema' : Schema)
    (k : option string) :
  rtc (retry data pos) schema schema' ->
  is_Some (schema !! k) -> is_Some (schema' !! k).
Proof.
  induction 1 as [| s1 s2 s3 [e [_ Href]] _ IH]; [done |].
  intros Hk. apply IH. by apply (refine_keeps_keys s1 s2 e).
Qed.

(** C3, as the code has it. Across any sequence of retries no key is
    lost, and the tags recorded for a key are still recorded for it at the
    end unless, in between, a failure other than the two schema signals was
    blamed on that key: the handler then records the empty set for the key,
    whatever it held. *)
Theorem schema_knowledge_monotone
    (data : Data) (pos : nat) (schema schema' : Schema) :
  rtc (retry data pos) schema schema' ->
  dom schema ⊆ dom schema' /\
  forall (k : option string) (tags : gset Member),
    schema !! k = Some tags ->
    exists tags',
      schema' !! k = Some tags' /\
      (child_tags_kept tags tags' \/ demoted_between data pos schema schema' k).
Proof.
  intros Hrtc. split.
  - intros k. rewrite !elem_of_dom. by apply (retries_keep_keys data pos).
  - induction Hrtc as [s | s1 s2 s3 Hstep Hrest IH]; intros k tags Hk.
    + exists tags. split; [done |]. left; by intros x Hx.
    + destruct Hstep as [e Hon].
      destruct (retry_on_children _ _ _ _ _ _ _ Hon Hk) as (tags2 & Hk2 & Hcase).
      destruct Hcase as [Hkept | [-> [what ->]]].
      * destruct (IH k tags2 Hk2) as (tags3 & Hk3 & Hcase).
        exists tags3. split; [done |]. destruct Hcase as [Hkept' | Hdem].
        -- left. intros x Hx. by apply Hkept', Hkept.
        -- right. destruct Hdem as (before & after & w & Hb & Hd & Ha).
           exists before, after, w. split; [| done].
           eapply rtc_l; [by exists e | done].
      * destruct (retries_keep_keys data pos s2 s3 k Hrest) as [tags3 Hk3]; [by eexists |].
        exists tags3. split; [done |]. right.
        exists s1, s2, what. split; [apply rtc_refl | done].
Qed.

(** ** The engine on sample streams *)

Import StreamSamples.

Lemma two_containers_retry1 :
  retry_on two_containers 0 ∅ (MissingSchemaKey "PPPP" (Some None)) learnt1.
Proof. split; vm_compute; reflexivity. Qed.

Lemma two_containers_retry2 :
  retry_on two_containers 0 learnt1 (MissingSchemaEntry (Some "PPPP") "AAAA") learnt2.
Proof. split; vm_compute; reflexivity. Qed.

Lemma two_containers_retry3 :
  retry_on two_containers 0 learnt2 (MissingSchemaKey "AAAA" (Some (Some "PPPP"))) learnt3.
Proof. split; vm_compute; reflexivity. Qed.

Lemma two_containers_retry4 :
  retry_on two_containers 0 learnt3
    (OtherException "record runs past the buffer" (Some (Some "PPPP"))) learnt4.
Proof. split; vm_compute; reflexivity. Qed.

Lemma schema_knowledge_monotone_witness :
  dom learnt2 ⊆ dom learnt4 /\
  forall (k : option string) (tags : gset Member),
    learnt2 !! k = Some tags ->
    exists tags',
      learnt4 !! k = Some tags' /\
      (child_tags_kept tags tags' \/ demoted_between two_containers 0 learnt2 learnt4 k).
Proof.
  apply (schema_knowledge_monotone two_containers 0 learnt2 learnt4).
  eapply rtc_l; [eexists; apply two_containers_retry3 |].
  eapply rtc_l; [eexists; apply two_containers_retry4 |].
  apply rtc_refl.
Defined.

(** C3 fails as stated: on [two_containers] the engine first learns
    that PPPP contains AAAA, then fails to split the second PPPP and
    records PPPP as a data leaf; the confirmed child is lost. *)
Lemma confirmed_container_demoted :
  rtc (retry two_containers 0) ∅ learnt3 /\
  retry two_containers 0 learnt3 learnt4 /\
  learnt3 !! Some "PPPP" = Some {[ inl "AAAA" ]} /\
  learnt4 !! Some "PPPP" = Some ∅ /\
  ~ child_tags_kept {[ inl "AAAA" ]} ∅.
Proof.
  split; [| split; [| split; [| split]]].
  - eapply rtc_l; [eexists; apply two_containers_retry1 |].
    eapply rtc_l; [eexists; apply two_containers_retry2 |].
    eapply rtc_l; [eexists; apply two_containers_retry3 |].
    apply rtc_refl.
  - eexists. apply two_containers_retry4.
  - vm_compute. reflexivity.
  - vm_compute. reflexivity.
  - intros Hkept. specialize (Hkept "AAAA"). set_solver.
Qed.

Lemma structural_failure_handling_witness :
  generate_schema_loop 2 0 two_containers learnt3
    = generate_schema_loop 1 0 two_containers (<[Some "PPPP" := DATA]> learnt3) /\
  (<[Some "PPPP" := DATA]> learnt3) !! Some "PPPP" = Some ∅ /\
  forall left_at : nat,
    generate_schema_loop 1 0 (seek left_at two_containers) (<[Some "PPPP" := DATA]> learnt3)
    = generate_schema_loop 1 0 two_containers (<[Some "PPPP" := DATA]> learnt3).
Proof.
  apply (structural_failure_handling 1 0 two_containers learnt3
           "record runs past the buffer" (Some "PPPP")).
  - vm_compute. reflexivity.
  - vm_compute. discriminate.
Defined.

(** ** The returned schema *)

Lemma finalize_lookup (schema : Schema) (k : option string) :
  finalize schema !! k =
    match schema !! k with
    | Some tags => if decide (tags = DUMMY) then None else Some tags
    | None => None
    end.
Proof.
  unfold finalize. rewrite map_lookup_filter.
  destruct (schema !! k) as [tags |]; simpl; [| done].
  destruct (decide (tags = DUMMY)) as [-> | Hne].
  - by rewrite option_guard_False by (intros H; by apply H).
  - by rewrite option_guard_True.
Qed.

Lemma generate_schema_loop_returns
    (attempts pos : nat) (data : Data) (schema result : Schema) :
  generate_schema_loop attempts pos data schema = Some (Ok result) ->
  exists final,
    rtc (retry data pos) schema final /\
    attempt data pos final = None /\
    result = finalize final.
Proof.
  revert schema. induction attempts as [| attempts IH]; intros schema; [done |].
  rewrite generate_schema_loop_step.
  destruct (attempt data pos schema) as [e |] eqn:Hwalk.
  - destruct (refine schema e) as [schema' |] eqn:Href; [| done].
    intros Hloop. destruct (IH schema' Hloop) as (final & Hrtc & Hend & Hres).
    exists final. split; [| done]. eapply rtc_l; [| done]. by exists e.
  - intros [= <-]. exists schema. split; [apply rtc_refl | done].
Qed.

(** C4, as the code has it. When inference succeeds, the mapping
    returned is the schema recorded at the successful walk without the keys
    that still hold the sentinel set: such a tag is absent from the result,
    every other key is returned with the set recorded for it, a data leaf
    with the empty set. *)
Theorem returned_schema_drops_sentinels
    (attempts : nat) (data : Data) (result : Schema) :
  generate_schema attempts data = Some (Ok result) ->
  exists final : Schema,
    rtc (retry data (tell data)) ∅ final /\
    attempt data (tell data) final = None /\
    result = finalize final /\
    forall k : option string,
      (final !! k = Some DUMMY -> result !! k = None) /\
      (final !! k = Some DATA -> result !! k = Some ∅) /\
      (forall tags, final !! k = Some tags -> tags <> DUMMY -> result !! k = Some tags) /\
      (final !! k = None -> result !! k = None).
Proof.
  unfold generate_schema. intros Hloop.
  destruct (generate_schema_loop_returns _ _ _ _ _ Hloop) as (final & Hrtc & Hend & ->).
  exists final. do 3 (split; [done |]). intros k. rewrite finalize_lookup.
  repeat split.
  - intros ->. by rewrite decide_True.
  - intros ->. by rewrite decide_False.
  - intros tags -> Hne. by rewrite decide_False.
  - by intros ->.
Qed.

Lemma returned_schema_drops_sentinels_witness :
  exists final : Schema,
    rtc (retry two_containers (tell two_containers)) ∅ final /\
    attempt two_containers (tell two_containers) final = None /\
    ({[ Some "PPPP" := ∅ ]} : Schema) = finalize final /\
    forall k : option string,
      (final !! k = Some DUMMY -> ({[ Some "PPPP" := ∅ ]} : Schema) !! k = None) /\
      (final !! k = Some DATA -> ({[ Some "PPPP" := ∅ ]} : Schema) !! k = Some ∅) /\
      (forall tags, final !! k = Some tags -> tags <> DUMMY ->
                    ({[ Some "PPPP" := ∅ ]} : Schema) !! k = Some tags) /\
      (final !! k = None -> ({[ Some "PPPP" := ∅ ]} : Schema) !! k = None).
Proof.
  apply (returned_schema_drops_sentinels 5 two_containers).
  vm_compute. reflexivity.
Defined.

(** C4 fails as stated: on a stream with one chunk TTTT of empty
    payload, TTTT is hypothesized as a container on the first turn; the
    second walk finds no child in it and succeeds; the mapping returned
    is empty, TTTT is not one of its keys. *)
Lemma sentinel_tag_absent_from_result :
  retry_on one_empty_chunk 0 ∅ (MissingSchemaKey "TTTT" (Some None))
    {[ Some "TTTT" := DUMMY ]} /\
  attempt one_empty_chunk 0 {[ Some "TTTT" := DUMMY ]} = None /\
  generate_schema 2 one_empty_chunk = Some (Ok ∅) /\
  (∅ : Schema) !! Some "TTTT" = None /\
  (∅ : Schema) !! Some "TTTT" <> Some ∅.
Proof.
  split; [split; vm_compute; reflexivity |].
  split; [vm_compute; reflexivity |].
  split; [vm_compute; reflexivity |].
  split; [reflexivity | discriminate].
Qed.

(** On [two_containers] the tag AAAA, still a sentinel at the end, is
    dropped as well, and PPPP is returned as a data leaf. *)
Example generate_schema_two_containers :
  generate_schema 4 two_containers = None /\
  generate_schema 5 two_containers = Some (Ok {[ Some "PPPP" := ∅ ]}).
Proof. split; vm_compute; reflexivity. Qed.

End IndexFacts.

(** * Further properties of smush/decode.py *)

Section DecodeExtras.
Import Decode.

Ltac unfold_bind := unfold mbind, result_bind, assert in *; simpl in *.

(** ** Palette chunks *)

Lemma le_int16_value (lo hi : byte) :
  le_int16 lo hi =
    byte_to_Z lo + 256 * byte_to_Z hi - (if byte_to_Z hi <? 128 then 0 else 65536) /\
  -32768 <= le_int16 lo hi <= 32767.
Proof.
  pose proof (byte_to_Z_range lo). pose proof (byte_to_Z_range hi).
  unfold le_int16. rewrite Z.lor_comm, (lor_shiftl_low (byte_to_Z hi) (byte_to_Z lo) 8) by lia.
  destruct (Z.ltb_spec (byte_to_Z hi * 2 ^ 8 + byte_to_Z lo) 32768);
    destruct (Z.ltb_spec (byte_to_Z hi) 128); lia.
Qed.

Lemma le_int16s_length (b : bytes) (n : nat) :
  length b = (2 * n)%nat -> length (le_int16s b) = n.
Proof.
  revert b. induction n as [| n IH]; intros b Hlen.
  - by destruct b.
  - destruct b as [| lo [| hi b]]; simpl in Hlen; try lia.
    simpl. f_equal. apply IH. lia.
Qed.

Lemma le_int16s_lookup (b : bytes) (i : nat) (lo hi : byte) :
  b !! (2 * i)%nat = Some lo -> b !! (2 * i + 1)%nat = Some hi ->
  le_int16s b !! i = Some (le_int16 lo hi).
Proof.
  revert b. induction i as [| i IH]; intros b Hlo Hhi.
  - destruct b as [| lo' [| hi' b]]; simplify_eq/=. done.
  - destruct b as [| lo' [| hi' b]]; try done.
    replace (2 * S i)%nat with (S (S (2 * i))) in Hlo by lia.
    replace (2 * S i + 1)%nat with (S (S (2 * i + 1))) in Hhi by lia.
    simpl in Hlo, Hhi. simpl. by apply IH.
Qed.

Lemma xpal_large (ctx : FrameGenCtx) (data : bytes) :
  length data = 2308%nat ->
  xpal ctx data =
    (_ ← assert (bool_decide (take 4 data = LARGE_XPAL_MARK));
     Ok (replace_delta_pal_palette ctx
           (le_int16s (take (2 * 768) (drop 4 data)))
           (byte_to_Z <$> drop (4 + 2 * 768) data))).
Proof.
  intros Hlen. unfold xpal, len. rewrite Hlen.
  assert ((Z.of_nat 2308 =? 768 * 3 + 4) = true) as -> by reflexivity.
  assert (length (take (2 * 768) (drop 4 data)) = (2 * 768)%nat) as Hwords.
  { rewrite length_take, length_drop, Hlen. reflexivity. }
  unfold unpack_le_h. rewrite bool_decide_eq_true_2 by exact Hwords. reflexivity.
Qed.

Lemma xpal_large_lookup (data : bytes) (i : nat) :
  length data = 2308%nat -> (i < 768)%nat ->
  exists lo hi b : byte,
    data !! (4 + 2 * i)%nat = Some lo /\
    data !! (5 + 2 * i)%nat = Some hi /\
    data !! (1540 + i)%nat = Some b /\
    le_int16s (take (2 * 768) (drop 4 data)) !! i = Some (le_int16 lo hi) /\
    (byte_to_Z <$> drop (4 + 2 * 768) data) !! i = Some (byte_to_Z b).
Proof.
  intros Hlen Hi.
  destruct (lookup_lt_is_Some_2 data (4 + 2 * i)) as [lo Hlo]; [lia |].
  destruct (lookup_lt_is_Some_2 data (5 + 2 * i)) as [hi Hhi]; [lia |].
  destruct (lookup_lt_is_Some_2 data (1540 + i)) as [b Hb]; [lia |].
  exists lo, hi, b. do 3 (split; [done |]). split.
  - apply le_int16s_lookup.
    + rewrite lookup_take_lt, lookup_drop by lia. done.
    + rewrite lookup_take_lt, lookup_drop by lia.
      by replace (4 + (2 * i + 1))%nat with (5 + 2 * i)%nat by lia.
  - rewrite list_lookup_fmap, lookup_drop.
    replace (4 + 2 * 768 + i)%nat with (1540 + i)%nat by lia. by rewrite Hb.
Qed.

Lemma xpal_large_lengths (data : bytes) :
  length data = 2308%nat ->
  length (le_int16s (take (2 * 768) (drop 4 data))) = 768%nat /\
  length (byte_to_Z <$> drop (4 + 2 * 768) data) = 768%nat.
Proof.
  intros Hlen. split.
  - apply le_int16s_length. rewrite length_take, length_drop, Hlen. reflexivity.
  - rewrite length_fmap, length_drop, Hlen. reflexivity.
Qed.

(** X1. On a payload of 768 * 3 + 4 bytes [xpal] raises unless the first
    four bytes are 00 00 00 02. Otherwise it stores, as delta palette, the
    768 signed little-endian 16-bit integers that follow the marker and, as
    palette, the 768 bytes after them; screen and frame are kept. *)
Theorem xpal_large_form (ctx : FrameGenCtx) (data : bytes) :
  length data = 2308%nat ->
  (take 4 data <> LARGE_XPAL_MARK -> xpal ctx data = Raise AssertionError) /\
  (take 4 data = LARGE_XPAL_MARK ->
   exists ctx' : FrameGenCtx,
     xpal ctx data = Ok ctx' /\
     length (delta_pal ctx') = 768%nat /\ length (palette ctx') = 768%nat /\
     screen ctx' = screen ctx /\ frame ctx' = frame ctx /\
     forall i : nat, (i < 768)%nat ->
       exists lo hi b : byte,
         data !! (4 + 2 * i)%nat = Some lo /\
         data !! (5 + 2 * i)%nat = Some hi /\
         data !! (1540 + i)%nat = Some b /\
         delta_pal ctx' !! i
           = Some (byte_to_Z lo + 256 * byte_to_Z hi
                   - (if byte_to_Z hi <? 128 then 0 else 65536)) /\
         palette ctx' !! i = Some (byte_to_Z b)).
Proof.
  intros Hlen. rewrite (xpal_large ctx data Hlen).
  split; intros Hmark; unfold_bind.
  - by rewrite bool_decide_eq_false_2.
  - rewrite bool_decide_eq_true_2 by done. eexists. split; [reflexivity |].
    destruct (xpal_large_lengths data Hlen) as [Hd Hp].
    simpl. do 2 (split; [done |]). do 2 (split; [reflexivity |]). intros i Hi.
    destruct (xpal_large_lookup data i Hlen Hi) as (lo & hi & b & Hlo & Hhi & Hb & Hdl & Hpl).
    exists lo, hi, b. do 3 (split; [done |]).
    by rewrite <- (proj1 (le_int16_value lo hi)).
Qed.

(** X2. [xpal] accepts two payload lengths only: any payload that has
    neither 6 nor 768 * 3 + 4 bytes, the empty one included, raises. *)
Theorem xpal_other_lengths (ctx : FrameGenCtx) (data : bytes) :
  length data <> 6%nat -> length data <> 2308%nat ->
  xpal ctx data = Raise AssertionError.
Proof.
  intros H6 H2308. unfold xpal, len.
  destruct (Z.eqb_spec (Z.of_nat (length data)) (768 * 3 + 4)); [lia |].
  destruct (Z.eqb_spec (Z.of_nat (length data)) 6); [lia | done].
Qed.

Lemma xpal_other_lengths_witness : xpal Samples.ctx0 [] = Raise AssertionError.
Proof. apply xpal_other_lengths; simpl; lia. Defined.

Lemma xpal_lengths (ctx ctx' : FrameGenCtx) (data : bytes) :
  xpal ctx data = Ok ctx' -> length data = 6%nat \/ length data = 2308%nat.
Proof.
  unfold xpal, len.
  destruct (Z.eqb_spec (Z.of_nat (length data)) (768 * 3 + 4)); [intros _; right; lia |].
  destruct (Z.eqb_spec (Z.of_nat (length data)) 6); [intros _; left; lia | done].
Qed.

(** X3. Whenever [xpal] returns, the context it returns holds a palette of
    768 values, each in [0..255], and a delta palette of 768 values; screen
    and frame are those of the context it was given. The small form can
    therefore be applied to the result, any number of times. *)
Theorem xpal_populates (ctx ctx' : FrameGenCtx) (data : bytes) :
  xpal ctx data = Ok ctx' ->
  length (palette ctx') = 768%nat /\
  Forall (fun v => 0 <= v <= 255) (palette ctx') /\
  length (delta_pal ctx') = 768%nat /\
  screen ctx' = screen ctx /\ frame ctx' = frame ctx /\
  exists ctx'' : FrameGenCtx, xpal ctx' SMALL_XPAL_MARK = Ok ctx''.
Proof.
  intros Hx.
  assert (length (palette ctx') = 768%nat /\
          Forall (fun v => 0 <= v <= 255) (palette ctx') /\
          length (delta_pal ctx') = 768%nat /\
          screen ctx' = screen ctx /\ frame ctx' = frame ctx) as Hpost.
  { destruct (xpal_lengths _ _ _ Hx) as [H6 | H2308].
    - rewrite (xpal_six ctx data H6) in Hx. unfold_bind. unfold len in Hx.
      case_bool_decide; [| done].
      destruct (Z.eqb_spec (Z.of_nat (length (delta_pal ctx))) 768); [| done].
      destruct (Z.eqb_spec (Z.of_nat (length (palette ctx))) 768); [| done].
      simplify_eq/=. split; [rewrite length_zip_with; lia |].
      split; [| repeat split; lia].
      apply Forall_forall. intros v Hv.
      apply elem_of_lookup_zip_with in Hv as (i & p & d & -> & _ & _).
      apply delta_color_range.
    - rewrite (xpal_large ctx data H2308) in Hx. unfold_bind.
      case_bool_decide; [| done]. simplify_eq/=.
      destruct (xpal_large_lengths data H2308) as [Hd Hp].
      repeat split; try done.
      apply Forall_fmap, Forall_forall. intros b _. simpl.
      pose proof (byte_to_Z_range b). lia. }
  destruct Hpost as (Hp & Hrange & Hd & Hs & Hf). repeat split; try done.
  rewrite (xpal_six ctx' SMALL_XPAL_MARK eq_refl). unfold_bind. unfold len.
  rewrite Hd, Hp. simpl. eauto.
Qed.

Lemma xpal_populates_witness :
  length (palette (replace_palette Samples.ctx_delta (repeat 126 768))) = 768%nat /\
  Forall (fun v => 0 <= v <= 255)
    (palette (replace_palette Samples.ctx_delta (repeat 126 768))) /\
  length (delta_pal (replace_palette Samples.ctx_delta (repeat 126 768))) = 768%nat /\
  screen (replace_palette Samples.ctx_delta (repeat 126 768)) = screen Samples.ctx_delta /\
  frame (replace_palette Samples.ctx_delta (repeat 126 768)) = frame Samples.ctx_delta /\
  exists ctx'' : FrameGenCtx,
    xpal (replace_palette Samples.ctx_delta (repeat 126 768)) SMALL_XPAL_MARK = Ok ctx''.
Proof.
  apply (xpal_populates Samples.ctx_delta _ SMALL_XPAL_MARK). vm_compute. reflexivity.
Defined.



(** ** The fold over the children of a frame *)

Section PipelineExtras.

Context (unobj : bytes -> res (fobj.FrameObjectHeader * bytes))
        (get_decoder : Z -> option (Z -> Z -> bytes -> res image.Matrix))
        (zlib_decompress : bytes -> res bytes)
        (ImagePosition_default : image.ImagePosition).

Local Abbreviation decode_frame_object := (Decode.decode_frame_object unobj get_decoder).
Local Abbreviation handler_of := (Decode.handler_of unobj get_decoder zlib_decompress).
Local Abbreviation decode_children :=
  (Decode.decode_children unobj get_decoder zlib_decompress).
Local Abbreviation frames_loop := (Decode.frames_loop unobj get_decoder zlib_decompress).
Local Abbreviation generate_frames :=
  (Decode.generate_frames unobj get_decoder zlib_decompress ImagePosition_default).

Lemma decode_frame_object_fields (ctx ctx' : FrameGenCtx) (data : bytes) :
  decode_frame_object ctx data = Ok ctx' ->
  palette ctx' = palette ctx /\ delta_pal ctx' = delta_pal ctx /\ frame ctx' = frame ctx.
Proof.
  unfold Decode.decode_frame_object. unfold_bind.
  destruct (convert_fobj unobj get_decoder data); [| done]. by intros [= <-].
Qed.

Lemma handler_of_frame (t : string) (ctx ctx' : FrameGenCtx) (data : bytes) :
  handler_of t ctx data = Ok ctx' -> frame ctx' = frame ctx.
Proof.
  unfold Decode.handler_of, DECODE_FRAME_IMAGE.
  repeat case_bool_decide; simpl.
  - by intros [= <-].
  - unfold xpal, unpack_le_h, bytes_of_ints. unfold_bind. intros Heq.
    repeat (case_match; simplify_eq); done.
  - unfold Decode.decode_compressed_frame_object. unfold_bind. intros Heq.
    repeat (case_match; simplify_eq). apply decode_frame_object_fields in Heq; tauto.
  - intros Heq. apply decode_frame_object_fields in Heq; tauto.
  - by intros [= <-].
Qed.

Lemma handler_of_palette (t : string) (ctx ctx' : FrameGenCtx) (data : bytes) :
  t <> "NPAL" -> t <> "XPAL" ->
  handler_of t ctx data = Ok ctx' ->
  palette ctx' = palette ctx /\ delta_pal ctx' = delta_pal ctx.
Proof.
  intros Hn Hx. unfold Decode.handler_of, DECODE_FRAME_IMAGE.
  repeat case_bool_decide; simpl; try done.
  - unfold Decode.decode_compressed_frame_object. unfold_bind. intros Heq.
    repeat (case_match; simplify_eq). apply decode_frame_object_fields in Heq. tauto.
  - intros Heq. apply decode_frame_object_fields in Heq. tauto.
  - by intros [= <-].
Qed.

Lemma handler_of_unrecognized (t : string) (ctx : FrameGenCtx) (data : bytes) :
  t <> "NPAL" -> t <> "XPAL" -> t <> "ZFOB" -> t <> "FOBJ" ->
  handler_of t ctx data = Ok ctx.
Proof.
  intros. unfold Decode.handler_of, DECODE_FRAME_IMAGE.
  by repeat case_bool_decide.
Qed.

(** X5. Components whose tags are not in [DECODE_FRAME_IMAGE] are passed
    over: a run of such components returns the context it was given,
    whatever their payloads. *)
Theorem unrecognized_chunks_ignored (ctx : FrameGenCtx) (comps : list Element) :
  unrecognized comps -> decode_children ctx comps = Ok ctx.
Proof.
  induction 1 as [| comp comps (Hn & Hx & Hz & Hf) _ IH]; [done |].
  simpl. rewrite handler_of_unrecognized by done. unfold_bind. exact IH.
Qed.

Lemma decode_children_app (ctx : FrameGenCtx) (comps1 comps2 : list Element) :
  decode_children ctx (comps1 ++ comps2)
  = (ctx' ← decode_children ctx comps1; decode_children ctx' comps2).
Proof.
  revert ctx. induction comps1 as [| comp comps1 IH]; intros ctx; [done |].
  simpl. unfold_bind. destruct (handler_of (tag comp) ctx (data comp)); [| done].
  apply IH.
Qed.

Lemma decode_children_frame (ctx ctx' : FrameGenCtx) (comps : list Element) :
  decode_children ctx comps = Ok ctx' -> frame ctx' = frame ctx.
Proof.
  revert ctx. induction comps as [| comp comps IH]; intros ctx.
  - by intros [= <-].
  - simpl. unfold_bind.
    destruct (handler_of (tag comp) ctx (data comp)) as [c |] eqn:Hh; [| done].
    intros Hrest. rewrite (IH c Hrest).
    by apply (handler_of_frame (tag comp) _ _ (data comp)).
Qed.

(** X6. The fold over the children of a frame never changes the [frame]
    field; the palette and the delta palette change only through NPAL and
    XPAL components, so a frame without them keeps both, whatever pixel
    payloads it decodes. *)
Theorem decode_children_fields (ctx ctx' : FrameGenCtx) (comps : list Element) :
  decode_children ctx comps = Ok ctx' ->
  frame ctx' = frame ctx /\
  (no_palette_chunk comps ->
   palette ctx' = palette ctx /\ delta_pal ctx' = delta_pal ctx).
Proof.
  revert ctx. induction comps as [| comp comps IH]; intros ctx.
  - by intros [= <-].
  - simpl. unfold_bind.
    destruct (handler_of (tag comp) ctx (data comp)) as [c |] eqn:Hh; [| done].
    intros Hrest. destruct (IH c Hrest) as [Hf Hp]. split.
    + rewrite Hf. by apply (handler_of_frame (tag comp) _ _ (data comp)).
    + intros Hnp. inversion Hnp as [| ? ? [Hn Hx] Hnp']; subst.
      destruct (Hp Hnp') as [-> ->].
      by apply (handler_of_palette (tag comp) _ _ (data comp)).
Qed.

(** ** The frame loop *)

Lemma frames_loop_invariant (frames : list Element) (ctx : FrameGenCtx)
    (ys : list FrameGenCtx) (e : option Exception) :
  frames_loop ctx frames = (ys, e) ->
  (length ys <= length frames)%nat /\
  (e = None <-> length ys = length frames) /\
  forall (i : nat) (c : FrameGenCtx),
    ys !! i = Some c ->
    is_Some (screen c) /\ exists f, frames !! i = Some f /\ frame c = Some f.
Proof.
  revert ctx ys e. induction frames as [| f frames IH]; intros ctx ys e.
  - intros [= <- <-]. simpl. repeat split; try done.
  - simpl.
    destruct (decode_children _ (children f)) as [c |] eqn:Hd.
    2: { intros [= <- <-]. simpl. repeat split; try done; lia. }
    destruct (screen c) as [s |] eqn:Hs.
    2: { intros [= <- <-]. simpl. repeat split; try done; lia. }
    destruct (frames_loop c frames) as [ys' e'] eqn:Hl.
    intros [= <- <-]. destruct (IH c ys' e' Hl) as (Hle & Hnone & Hall).
    simpl. split; [lia |]. split; [rewrite Hnone; split; lia |].
    intros [| i] c'; simpl.
    + intros [= <-]. split; [by rewrite Hs |]. exists f. split; [done |].
      by rewrite (decode_children_frame _ _ _ Hd).
    + apply Hall.
Qed.

(** X7. [generate_frames] yields at most one context per frame, in the
    order of the frames; it ends without an exception exactly when it has
    yielded one for every frame. Every context yielded has a screen and
    refers, in [frame], to the frame it was yielded for. *)
Theorem generate_frames_yields
    (header_palette : list Z) (frames : list Element) :
  let '(ys, e) := generate_frames header_palette frames in
  (length ys <= length frames)%nat /\
  (e = None <-> length ys = length frames) /\
  forall (i : nat) (c : FrameGenCtx),
    ys !! i = Some c ->
    is_Some (screen c) /\ exists f, frames !! i = Some f /\ frame c = Some f.
Proof.
  unfold Decode.generate_frames.
  destruct (frames_loop _ frames) as [ys e] eqn:Hl.
  exact (frames_loop_invariant frames _ ys e Hl).
Qed.

Lemma frames_loop_app (frames1 frames2 : list Element) (ctx : FrameGenCtx) :
  frames_loop ctx (frames1 ++ frames2) =
    match frames_loop ctx frames1 with
    | (ys1, Some e) => (ys1, Some e)
    | (ys1, None) =>
        ((ys1 ++ (frames_loop (default ctx (last ys1)) frames2).1)%list,
         (frames_loop (default ctx (last ys1)) frames2).2)
    end.
Proof.
  revert ctx. induction frames1 as [| f frames1 IH]; intros ctx.
  - simpl. by destruct (frames_loop ctx frames2).
  - simpl. destruct (decode_children _ (children f)) as [c |]; [| done].
    destruct (screen c); [| done].
    rewrite IH. destruct (frames_loop c frames1) as [ys1 [e |]]; [done |].
    simpl. rewrite last_cons. by destruct (last ys1).
Qed.

(** X8. What is yielded for a frame does not depend on the frames after
    it: the contexts yielded for the first frames of a list are those
    yielded for these frames alone, followed, if they were all yielded, by
    those of a loop that goes on from the last one; and a failure among the
    first frames is the result for the whole list. *)
Theorem generate_frames_streams
    (header_palette : list Z) (frames1 frames2 : list Element) :
  let '(ys1, e1) := generate_frames header_palette frames1 in
  ys1 `prefix_of` (generate_frames header_palette (frames1 ++ frames2)).1 /\
  match e1 with
  | Some e => generate_frames header_palette (frames1 ++ frames2) = (ys1, Some e)
  | None =>
      generate_frames header_palette (frames1 ++ frames2) =
        ((ys1 ++ (frames_loop
                    (default (FrameGenCtx_init ImagePosition_default header_palette)
                       (last ys1)) frames2).1)%list,
         (frames_loop
            (default (FrameGenCtx_init ImagePosition_default header_palette)
               (last ys1)) frames2).2)
  end.
Proof.
  unfold Decode.generate_frames. rewrite frames_loop_app.
  destruct (frames_loop _ frames1) as [ys1 [e |]]; simpl.
  - done.
  - split; [by apply prefix_app_r | done].
Qed.

(** X9. An unimplemented codec is fatal for its frame unless a later
    pixel payload of the same frame is decoded: when the children before the
    frame object are folded without an exception and those after it hold no
    pixel payload, the generator raises at the end of the frame and yields
    nothing for it. *)
Theorem unimplemented_codec_is_fatal
    (ctx c1 c2 : FrameGenCtx) (frame : Element) (rest before after kids : list Element)
    (datam pixels : bytes) (meta : fobj.FrameObjectHeader) :
  children frame = (before ++ mkElement "FOBJ" kids datam :: after)%list ->
  decode_children (replace_frame ctx (Some frame)) before = Ok c1 ->
  unobj datam = Ok (meta, pixels) ->
  get_decoder (fobj.codec meta) = None ->
  no_pixel_payload after ->
  decode_children (replace_screen c1 None) after = Ok c2 ->
  frames_loop ctx (frame :: rest) = ([], Some AssertionError).
Proof.
  intros Hkids Hbefore Hu Hd Hnp Hafter.
  assert (decode_children (replace_frame ctx (Some frame)) (children frame) = Ok c2) as Hfold.
  { rewrite Hkids, decode_children_app, Hbefore. unfold_bind.
    unfold Decode.handler_of. simpl. unfold Decode.decode_frame_object. unfold_bind.
    by rewrite (convert_fobj_unimplemented unobj get_decoder datam pixels meta Hu Hd). }
  rewrite (frames_loop_cons _ _ _ _ c2 frame rest Hfold).
  by rewrite (decode_children_screen _ _ _ after _ c2 Hnp Hafter).
Qed.

(** ** The output stages *)

Lemma decode_san_loop_seq
    (save_frame : nat -> Screen -> list Z -> res unit)
    (ys : list FrameGenCtx) (idx : nat) (ending : option Exception) :
  Forall (fun c => is_Some (screen c)) ys ->
  exists k : nat,
    (k <= length ys)%nat /\
    (decode_san_loop save_frame idx ys ending).1 = seq idx k /\
    ((decode_san_loop save_frame idx ys ending).2 = None ->
     k = length ys /\ ending = None).
Proof.
  intros Hscreens. revert idx.
  induction Hscreens as [| c ys [s Hs] _ IH]; intros idx.
  - exists 0%nat. simpl. repeat split; done.
  - simpl. rewrite Hs.
    destruct (_ ← assert _; save_frame idx s (palette c)) as [[] | e] eqn:Hsave.
    + destruct (IH (S idx)) as (k & Hk & Hseq & Hnone).
      destruct (decode_san_loop save_frame (S idx) ys ending) as [written e'].
      simpl in *. exists (S k). split; [lia |]. split; [by rewrite Hseq |].
      intros He. destruct (Hnone He) as [-> ->]. done.
    + exists 0%nat. simpl. split; [lia |]. split; done.
Qed.

(** X10. [decode_san] numbers the images it writes 0, 1, 2, ... without a
    gap, one for each frame in turn: the test on the screen never skips a
    frame. If it ends without an exception, it has written one image for
    every frame. *)
Theorem decode_san_numbering
    (save_frame : nat -> Screen -> list Z -> res unit)
    (header_palette : list Z) (frames : list Element) :
  exists k : nat,
    (k <= length frames)%nat /\
    (decode_san unobj get_decoder zlib_decompress ImagePosition_default save_frame
       header_palette frames).1 = seq 0 k /\
    ((decode_san unobj get_decoder zlib_decompress ImagePosition_default save_frame
        header_palette frames).2 = None -> k = length frames).
Proof.
  unfold decode_san, Decode.generate_frames.
  destruct (frames_loop _ frames) as [ys ending] eqn:Hl.
  destruct (frames_loop_invariant frames _ ys ending Hl) as (Hle & Hnone & Hall).
  destruct (decode_san_loop_seq save_frame ys 0 ending) as (k & Hk & Hseq & Hend).
  { apply Forall_lookup. intros i c Hc. by destruct (Hall i c Hc). }
  exists k. split; [lia |]. split; [done |].
  intros He. destruct (Hend He) as [-> ->]. by apply Hnone.
Qed.

End PipelineExtras.

(** X11. In [decode_nut], on a palette of at least 120 entries the slice
    assignment sets entries 117, 118 and 119, the colour of index 39, to
    109 and leaves every other entry and the length as they are. *)
Theorem nut_palette_remap (header_palette : list Z) :
  (120 <= length header_palette)%nat ->
  length (nut_palette header_palette) = length header_palette /\
  forall i : nat,
    nut_palette header_palette !! i =
      if bool_decide (117 <= i < 120)%nat then Some 109 else header_palette !! i.
Proof.
  intros Hlen. unfold nut_palette.
  assert (length (take (3 * 39) header_palette) = 117%nat) as Htake
    by (rewrite length_take; lia).
  split.
  - rewrite !length_app, Htake, length_drop.
    change (length [109; 109; 109]) with 3%nat. lia.
  - intros i. case_bool_decide as Hi.
    + rewrite lookup_app_r by lia. rewrite Htake.
      destruct (decide (i = 117%nat)) as [-> |]; [reflexivity |].
      destruct (decide (i = 118%nat)) as [-> |]; [reflexivity |].
      destruct (decide (i = 119%nat)) as [-> |]; [reflexivity |]. lia.
    + destruct (decide (i < 117)%nat).
      * rewrite lookup_app_l by lia. by rewrite lookup_take_lt by lia.
      * rewrite lookup_app_r by lia. rewrite Htake.
        rewrite lookup_app_r by (change (length [109; 109; 109]) with 3%nat; lia).
        rewrite lookup_drop. change (length [109; 109; 109]) with 3%nat. f_equal. lia.
Qed.

Lemma nut_palette_remap_witness :
  length (nut_palette Samples.gray_palette) = length Samples.gray_palette /\
  forall i : nat,
    nut_palette Samples.gray_palette !! i =
      if bool_decide (117 <= i < 120)%nat then Some 109 else Samples.gray_palette !! i.
Proof. apply nut_palette_remap. vm_compute. lia. Defined.

Lemma decode_children_fields_witness :
  frame Samples.yielded_second = frame (replace_frame Samples.yielded_first
                                          (Some (Samples.FRME [Samples.FTCH]))) /\
  (no_palette_chunk [Samples.FTCH] ->
   palette Samples.yielded_second = palette (replace_frame Samples.yielded_first
                                               (Some (Samples.FRME [Samples.FTCH]))) /\
   delta_pal Samples.yielded_second = delta_pal (replace_frame Samples.yielded_first
                                                   (Some (Samples.FRME [Samples.FTCH])))).
Proof.
  apply (decode_children_fields Samples.unobj Samples.get_decoder Samples.stored
           (replace_frame Samples.yielded_first (Some (Samples.FRME [Samples.FTCH])))
           Samples.yielded_second [Samples.FTCH]).
  reflexivity.
Defined.

Lemma unrecognized_chunks_ignored_witness :
  Samples.decode_children Samples.ctx0 [Samples.FTCH; Samples.FTCH] = Ok Samples.ctx0.
Proof.
  apply (unrecognized_chunks_ignored Samples.unobj Samples.get_decoder Samples.stored).
  repeat constructor; discriminate.
Defined.

Lemma xpal_large_form_witness :
  exists ctx' : FrameGenCtx,
    xpal Samples.ctx0 ExtraSamples.large_xpal = Ok ctx' /\
    length (delta_pal ctx') = 768%nat /\ length (palette ctx') = 768%nat /\
    screen ctx' = screen Samples.ctx0 /\ frame ctx' = frame Samples.ctx0 /\
    forall i : nat, (i < 768)%nat ->
      exists lo hi b : byte,
        ExtraSamples.large_xpal !! (4 + 2 * i)%nat = Some lo /\
        ExtraSamples.large_xpal !! (5 + 2 * i)%nat = Some hi /\
        ExtraSamples.large_xpal !! (1540 + i)%nat = Some b /\
        delta_pal ctx' !! i
          = Some (byte_to_Z lo + 256 * byte_to_Z hi
                  - (if byte_to_Z hi <? 128 then 0 else 65536)) /\
        palette ctx' !! i = Some (byte_to_Z b).
Proof.
  destruct (xpal_large_form Samples.ctx0 ExtraSamples.large_xpal eq_refl) as [_ Hgood].
  apply Hgood. reflexivity.
Defined.

(** The deltas FF FF are read as -1. *)
Example xpal_large_sample :
  delta_pal <$> xpal Samples.ctx0 ExtraSamples.large_xpal = Ok (repeat (-1) 768) /\
  palette <$> xpal Samples.ctx0 ExtraSamples.large_xpal = Ok (repeat 16 768).
Proof. split; vm_compute; reflexivity. Qed.

Lemma unimplemented_codec_is_fatal_witness :
  Samples.frames_loop Samples.ctx0 [ExtraSamples.undecodable_frame]
  = ([], Some AssertionError).
Proof.
  apply (unimplemented_codec_is_fatal Samples.unobj Samples.get_decoder Samples.stored
           Samples.ctx0
           (replace_frame Samples.ctx0 (Some ExtraSamples.undecodable_frame))
           (replace_screen
              (replace_frame Samples.ctx0 (Some ExtraSamples.undecodable_frame)) None)
           ExtraSamples.undecodable_frame [] [Samples.FTCH] [Samples.FTCH] []
           Samples.fobj47 [x01; x02] (fobj.mkFrameObjectHeader 47 0 0 0 0));
    try reflexivity.
  repeat constructor; discriminate.
Defined.

End DecodeExtras.

(** * Further properties of core/index.py *)

Section IndexExtras.
Import Index.

#[local] Arguments map_chunks : simpl never.

(** ** Blame *)

(** X12. [exception_ptag_context] sets the [ptag] attribute once: an
    exception that has the attribute keeps it, so a failure is blamed on the
    innermost parent it passed through; every exception that leaves the
    context has the attribute. *)
Theorem exception_ptag_context_once (inner outer : option string) (e : Exception) :
  exception_ptag_context outer (exception_ptag_context inner e)
    = exception_ptag_context inner e /\
  is_Some (ptag_attr (exception_ptag_context inner e)) /\
  (ptag_attr e = None -> ptag_attr (exception_ptag_context inner e) = Some inner) /\
  (is_Some (ptag_attr e) -> exception_ptag_context inner e = e).
Proof.
  destruct e as [t [a |] | p t | w [a |]]; simpl; repeat split;
    try done; try by eexists.
  all: by intros [? [=]].
Qed.

(** ** The elements a walk yields *)

Lemma map_chunks_each_cons (schema : Schema) (strict : bool) (ptag : option string)
    (failure : option string) (hoff : Z) (t : string) (chunk : Data)
    (chunks : list (Z * (string * Data))) :
  map_chunks_each schema strict ptag failure ((hoff, (t, chunk)) :: chunks) =
    match create_element schema (map_chunks schema strict) t hoff chunk with
    | Raise e => ([], Some e)
    | Ok element =>
        match schema_check schema ptag t strict with
        | Some e => ([element], Some e)
        | None =>
            (element :: (map_chunks_each schema strict ptag failure chunks).1,
             (map_chunks_each schema strict ptag failure chunks).2)
        end
    end.
Proof.
  simpl. destruct (create_element _ _ _ _ _); [| done].
  destruct (schema_check _ _ _ _); [done |].
  by destruct (map_chunks_each _ _ _ _ chunks).
Qed.

Lemma create_element_fields (schema : Schema)
    (children_of : option string -> Data -> list Element * option Exception)
    (t : string) (hoff : Z) (chunk : Data) (element : Element) :
  create_element schema children_of t hoff chunk = Ok element ->
  tag element = t /\ attr_offset (attribs element) = hoff /\
  attr_size (attribs element) = Z.of_nat (span (view chunk)) /\
  attr_gid (attribs element) = None /\
  _stream element = view chunk /\
  children element =
    (if truthy_entry schema t then (children_of (Some t) chunk).1 else []) /\
  (truthy_entry schema t = true -> (children_of (Some t) chunk).2 = None).
Proof.
  unfold create_element, mbind, result_bind.
  destruct (truthy_entry schema t).
  - destruct (children_of (Some t) chunk) as [kids [e |]]; [done |].
    intros [= <-]. simpl. repeat split.
  - intros [= <-]. simpl. repeat split. done.
Qed.

Lemma map_chunks_each_mirrors (schema : Schema) (strict : bool) (ptag : option string)
    (failure : option string) (chunks : list (Z * (string * Data))) :
  let walk := map_chunks_each schema strict ptag failure chunks in
  Forall2 mirrors walk.1 (take (length walk.1) chunks) /\
  (length walk.1 <= length chunks)%nat /\
  (walk.2 = None -> length walk.1 = length chunks).
Proof.
  induction chunks as [| [hoff [t chunk]] chunks IH].
  - simpl. destruct failure; simpl; (split; [constructor |]); split; done.
  - rewrite map_chunks_each_cons.
    destruct (create_element _ _ _ _ _) as [element | e] eqn:Hc.
    2: { simpl. split; [constructor |]. split; [lia | done]. }
    apply create_element_fields in Hc as (Ht & Ho & Hs & _ & Hv & _).
    destruct (schema_check _ _ _ _) as [e |].
    + simpl. split; [by repeat constructor |]. split; [lia | done].
    + simpl in *. destruct IH as (Hm & Hle & Hnone).
      split; [| split; [lia | intros He; by rewrite Hnone]].
      constructor; [done | exact Hm].
Qed.

Lemma map_chunks_complete (schema : Schema) (strict : bool) (ptag : option string)
    (data : Data) :
  (map_chunks schema strict ptag data).2 = None ->
  length (map_chunks schema strict ptag data).1 = length (read_chunks data).
Proof.
  rewrite map_chunks_unfold. simpl.
  destruct (map_chunks_each_mirrors schema strict ptag (read_failure data)
              (read_chunks data)) as (_ & _ & Hlen).
  destruct (map_chunks_each _ _ _ _ _).2; [done | by intros _; apply Hlen].
Qed.

Lemma read_chunks_seek_tell (data : Data) :
  read_chunks (seek (tell data) data) = read_chunks data /\
  read_failure (seek (tell data) data) = read_failure data.
Proof. by destruct data. Qed.

(** X13. The elements a walk yields are the records of the stream, in
    order, up to the point where the walk stopped: each element has the tag
    and the offset of its record, the length of the payload as size and the
    payload's view as stream; a walk that ends without an exception yields
    one element for every record. This holds in both modes. *)
Theorem map_chunks_mirrors_records
    (schema : Schema) (strict : bool) (ptag : option string) (data : Data) :
  let walk := map_chunks schema strict ptag data in
  Forall2 mirrors walk.1 (take (length walk.1) (read_chunks data)) /\
  (length walk.1 <= length (read_chunks data))%nat /\
  (walk.2 = None -> length walk.1 = length (read_chunks data)).
Proof.
  rewrite map_chunks_unfold. simpl.
  destruct (map_chunks_each_mirrors schema strict ptag (read_failure data)
              (read_chunks data)) as (Hm & Hle & Hnone).
  repeat split; try done.
  destruct (map_chunks_each _ _ _ _ _).2; [done | by intros _; apply Hnone].
Qed.

(** ** The two modes *)

Lemma schema_check_lenient (schema : Schema) (ptag : option string) (t : string) :
  (truthy_tag ptag = true -> is_Some (schema !! ptag)) ->
  schema_check schema ptag t false = None.
Proof.
  unfold schema_check. intros Hp. case_bool_decide; simpl.
  - destruct (truthy_tag ptag); [| done].
    destruct (Hp eq_refl) as [tags ->]. by case_bool_decide.
  - destruct (truthy_tag ptag); [| done].
    destruct (Hp eq_refl) as [tags ->]. by case_bool_decide.
Qed.

Lemma truthy_entry_is_Some (schema : Schema) (t : string) :
  truthy_entry schema t = true ->
  exists tags, schema !! Some t = Some tags /\ tags <> ∅.
Proof.
  unfold truthy_entry. destruct (schema !! Some t) as [tags |]; [| done].
  case_bool_decide; [done |]. eauto.
Qed.

Lemma well_framed_unfold (data : Data) :
  well_framed data =
    bool_decide (read_failure data = None)
    && forallb (fun record => well_framed record.2.2) (read_chunks data).
Proof.
  destruct data as [v records failures]. simpl.
  unfold read_chunks, read_failure, tell. simpl. f_equal.
  induction (records (cursor v)) as [| [hoff [t chunk]] chunks IH]; [done |].
  simpl. by rewrite IH.
Qed.

(** X14. Without [strict], a walk of a stream in which the reader raises
    nowhere ends without an exception and yields an element for every
    record, whatever the schema is, provided the parent tag it is started
    with is false in a condition or a key of the schema: a missing key or
    entry is not an error in this mode. *)
Theorem lenient_walk_succeeds (schema : Schema) (data : Data) :
  forall ptag : option string,
    well_framed data = true ->
    (truthy_tag ptag = true -> is_Some (schema !! ptag)) ->
    (map_chunks schema false ptag data).2 = None /\
    length (map_chunks schema false ptag data).1 = length (read_chunks data).
Proof.
  induction data as [v records failures IH] using Data_payload_ind.
  intros ptag Hwf Hp.
  assert ((map_chunks schema false ptag (mkData v records failures)).2 = None) as Hnone.
  { rewrite map_chunks_unfold.
    rewrite well_framed_unfold in Hwf. apply andb_true_iff in Hwf as [Hfail Hsub].
    apply bool_decide_eq_true_1 in Hfail.
    unfold read_chunks, read_failure, tell in *. simpl in *. rewrite Hfail.
    specialize (IH (cursor v)).
    induction IH as [| [hoff [t chunk]] chunks Hchunk _ IHchunks]; [done |].
    simpl in Hsub. apply andb_true_iff in Hsub as [Hwfc Hsub].
    rewrite map_chunks_each_cons, (schema_check_lenient schema ptag t Hp).
    unfold create_element, mbind, result_bind.
    destruct (truthy_entry schema t) eqn:Ht.
    - destruct (Hchunk (Some t) Hwfc) as [Hsubwalk _].
      { intros _. apply truthy_entry_is_Some in Ht as (tags & -> & _). by eexists. }
      simpl in Hsubwalk.
      destruct (map_chunks schema false (Some t) chunk) as [kids e]. simpl in Hsubwalk.
      subst e. simpl. by apply IHchunks.
    - simpl. by apply IHchunks. }
  split; [done |]. by apply map_chunks_complete.
Qed.

Lemma schema_check_strict_None (schema : Schema) (ptag : option string) (t : string) :
  schema_check schema ptag t true = None ->
  is_Some (schema !! Some t) /\
  (truthy_tag ptag = true ->
   exists tags, schema !! ptag = Some tags /\ inl t ∈ tags).
Proof.
  unfold schema_check. destruct (truthy_tag ptag).
  - destruct (schema !! ptag) as [tags |]; [| done].
    case_bool_decide; [| done]. case_bool_decide; [| done]. eauto.
  - case_bool_decide; [| done]. intros _. split; [done |]. done.
Qed.

Lemma map_chunks_strict_conforms (schema : Schema) (data : Data) :
  forall ptag : option string,
    (map_chunks schema true ptag data).2 = None ->
    forallb (conforms schema ptag) (map_chunks schema true ptag data).1 = true.
Proof.
  induction data as [v records failures IH] using Data_payload_ind.
  intros ptag. rewrite map_chunks_unfold. simpl.
  unfold read_chunks, read_failure, tell. simpl. specialize (IH (cursor v)).
  induction IH as [| [hoff [t chunk]] chunks Hchunk _ IHchunks]; [done |].
  rewrite map_chunks_each_cons. simpl in Hchunk.
  destruct (create_element _ _ _ _ _) as [element | e] eqn:Hc; [| done].
  destruct (schema_check schema ptag t true) as [e |] eqn:Hcheck; [done |].
  simpl. intros Hrest. rewrite (IHchunks Hrest), andb_true_r.
  apply schema_check_strict_None in Hcheck as [Hkey Hentry].
  apply create_element_fields in Hc as (Ht & _ & _ & _ & _ & Hkids & Hsub).
  destruct element as [t' a kids s]. simpl in *. subst t'.
  rewrite bool_decide_eq_true_2 by done. simpl.
  apply andb_true_iff. split.
  - destruct (truthy_tag ptag); [| done].
    destruct (Hentry eq_refl) as (tags & -> & Hin). by apply bool_decide_eq_true_2.
  - subst kids. destruct (truthy_entry schema t); [| done].
    apply Hchunk. by apply Hsub.
Qed.

(** X15. A strict walk that ends without an exception has yielded one
    element for every record, and only elements that agree with the schema
    at every depth: each tag is a key of the schema, and each tag below a
    parent is in the set recorded for the parent. *)
Theorem strict_walk_conforms (schema : Schema) (ptag : option string) (data : Data) :
  (map_chunks schema true ptag data).2 = None ->
  length (map_chunks schema true ptag data).1 = length (read_chunks data) /\
  Forall (fun element => conforms schema ptag element = true)
    (map_chunks schema true ptag data).1.
Proof.
  intros Hnone. split.
  - by apply map_chunks_complete.
  - apply Forall_forall. intros element Hin.
    pose proof (map_chunks_strict_conforms schema data ptag Hnone) as Hall.
    rewrite forallb_forall in Hall. by apply Hall, list_elem_of_In.
Qed.

(** X16. Whatever the mode and however the walk ends, the elements it
    yields have children only under tags that the schema records with a
    non-empty set; a tag the schema does not know, or knows as a data leaf,
    gives an element without children. *)
Theorem walk_children_licensed (schema : Schema) (strict : bool) (data : Data) :
  forall ptag : option string,
    forallb (licensed schema) (map_chunks schema strict ptag data).1 = true.
Proof.
  induction data as [v records failures IH] using Data_payload_ind.
  intros ptag. rewrite map_chunks_unfold. simpl.
  unfold read_chunks, read_failure, tell. simpl. specialize (IH (cursor v)).
  induction IH as [| [hoff [t chunk]] chunks Hchunk _ IHchunks]; [done |].
  rewrite map_chunks_each_cons. simpl in Hchunk.
  destruct (create_element _ _ _ _ _) as [element | e] eqn:Hc; [| done].
  apply create_element_fields in Hc as (Ht & _ & _ & _ & _ & Hkids & _).
  assert (licensed schema element = true) as Hel.
  { destruct element as [t' a kids s]. simpl in *. subst t' kids.
    destruct (truthy_entry schema t); simpl.
    - rewrite orb_true_r. simpl. apply Hchunk.
    - done. }
  destruct (schema_check schema ptag t strict); simpl; rewrite Hel; [done |].
  simpl. apply IHchunks.
Qed.

(** ** What a failed walk refers to *)

Lemma tags_of_unfold (data : Data) :
  tags_of data =
    flat_map (fun record => record.2.1 :: tags_of record.2.2) (read_chunks data).
Proof.
  destruct data as [v records failures]. simpl.
  unfold read_chunks, tell. simpl.
  induction (records (cursor v)) as [| [hoff [t chunk]] chunks IH]; [done |].
  simpl. by rewrite IH.
Qed.

Lemma schema_check_refers (tags : list string) (schema : Schema) (strict : bool)
    (ptag : option string) (t : string) (e : Exception) :
  t ∈ tags -> walked_under tags schema ptag ->
  schema_check schema ptag t strict = Some e ->
  refers_within tags schema (exception_ptag_context ptag e).
Proof.
  intros Ht Hp. unfold schema_check.
  destruct (truthy_tag ptag) eqn:Htruthy.
  - destruct Hp as [-> | (t' & -> & Ht' & Hentry)]; [done |].
    destruct (schema !! Some t') as [recorded |] eqn:Hl.
    + case_bool_decide.
      * case_bool_decide; [done |]. destruct strict; [| done]. by intros [= <-].
      * destruct strict; [| done]. intros [= <-]. simpl. split; [done |]. eauto.
    + intros [= <-]. simpl. eexists. split; [done |]. right. eauto.
  - case_bool_decide; [done |]. destruct strict; [| done]. by intros [= <-].
Qed.

Lemma exception_ptag_context_refers (tags : list string) (schema : Schema)
    (ptag : option string) (e : Exception) :
  refers_within tags schema e ->
  refers_within tags schema (exception_ptag_context ptag e).
Proof.
  destruct e as [t [a |] | p t | w [a |]]; simpl; try done.
  by intros (p & [=] & _).
Qed.

Lemma map_chunks_refers (tags : list string) (schema : Schema) (strict : bool)
    (data : Data) :
  forall (ptag : option string) (e : Exception),
    (forall t, t ∈ tags_of data -> t ∈ tags) ->
    walked_under tags schema ptag ->
    (map_chunks schema strict ptag data).2 = Some e ->
    refers_within tags schema e.
Proof.
  induction data as [v records failures IH] using Data_payload_ind.
  intros ptag e Htags Hp. rewrite map_chunks_unfold. rewrite tags_of_unfold in Htags.
  unfold read_chunks, read_failure, tell in *. simpl in *. specialize (IH (cursor v)).
  destruct (map_chunks_each _ _ _ _ _).2 as [e' |] eqn:Hwalk; [| done].
  simpl. intros [= <-]. revert Hwalk.
  induction IH as [| [hoff [t chunk]] chunks Hchunk _ IHchunks].
  - simpl. destruct (failures (cursor v)); [| done].
    simpl. intros [= <-]. simpl. eauto.
  - simpl in Hchunk, Htags. rewrite map_chunks_each_cons.
    assert (t ∈ tags) as Ht by (apply Htags; left).
    assert (forall t', t' ∈ tags_of chunk -> t' ∈ tags) as Hsub.
    { intros t' Ht'. apply Htags. right. apply elem_of_app. by left. }
    assert (forall t', t' ∈ flat_map (fun record => record.2.1 :: tags_of record.2.2) chunks
                       -> t' ∈ tags) as Hrest.
    { intros t' Ht'. apply Htags. right. apply elem_of_app. by right. }
    unfold create_element, mbind, result_bind.
    destruct (truthy_entry schema t) eqn:Hentry.
    + destruct (map_chunks schema strict (Some t) chunk) as [kids [e |]] eqn:Hsubwalk.
      * simpl. intros [= <-]. apply exception_ptag_context_refers.
        apply (Hchunk (Some t) e Hsub); [right; eauto | by rewrite Hsubwalk].
      * destruct (schema_check schema ptag t strict) as [e |] eqn:Hcheck.
        -- simpl. intros [= <-]. exact (schema_check_refers tags schema strict ptag t e Ht Hp Hcheck).
        -- simpl. by apply IHchunks.
    + destruct (schema_check schema ptag t strict) as [e |] eqn:Hcheck.
      * simpl. intros [= <-]. exact (schema_check_refers tags schema strict ptag t e Ht Hp Hcheck).
      * simpl. by apply IHchunks.
Qed.

Lemma attempt_refers (data : Data) (pos : nat) (schema : Schema) (e : Exception) :
  attempt data pos schema = Some e ->
  refers_within (tags_of (seek pos data)) schema e.
Proof.
  unfold attempt. intros Hwalk.
  apply (map_chunks_refers _ schema true (seek pos data) None e); [done | by left | done].
Qed.

(** ** Termination of the retry loop *)

Lemma count_le {A} (f : A -> bool) (l : list A) : (count f l <= length l)%nat.
Proof. apply filter_length_le. Qed.

Lemma count_mono {A} (f g : A -> bool) (l : list A) :
  (forall x, x ∈ l -> f x = true -> g x = true) ->
  (count f l <= count g l)%nat.
Proof.
  unfold count. induction l as [| x l IH]; intros Hfg; [done |]. simpl.
  assert (length (List.filter f l) <= length (List.filter g l))%nat as Hl.
  { apply IH. intros y Hy. apply Hfg. by right. }
  destruct (f x) eqn:Hf.
  - rewrite (Hfg x) by (done || left). simpl. lia.
  - destruct (g x); simpl; lia.
Qed.

Lemma count_strict {A} (f g : A -> bool) (l : list A) (x : A) :
  x ∈ l -> f x = false -> g x = true ->
  (forall y, y ∈ l -> f y = true -> g y = true) ->
  (count f l < count g l)%nat.
Proof.
  unfold count. induction l as [| y l IH]; intros Hx Hf Hg Hfg.
  - by apply elem_of_nil in Hx.
  - simpl.
    assert (length (List.filter f l) <= length (List.filter g l))%nat as Hl.
    { apply (count_mono f g l). intros z Hz. apply Hfg. by right. }
    apply elem_of_cons in Hx as [<- | Hx].
    + rewrite Hf, Hg. simpl. lia.
    + assert (length (List.filter f l) < length (List.filter g l))%nat as Hlt.
      { apply IH; try done. intros z Hz. apply Hfg. by right. }
      destruct (f y) eqn:Hfy.
      * rewrite (Hfg y) by (done || left). simpl. lia.
      * destruct (g y); simpl; lia.
Qed.

Lemma walked_under_key (tags : list string) (schema : Schema) (p : option string) :
  walked_under tags schema p -> p ∈ stream_keys tags.
Proof.
  intros [-> | (t & -> & Ht & _)]; [left |].
  right. by apply list_elem_of_fmap_2.
Qed.

Lemma retry_on_leaf (data : Data) (pos : nat) (schema schema' : Schema) (e : Exception)
    (k : option string) :
  retry_on data pos schema e schema' ->
  schema !! k = Some ∅ -> schema' !! k = Some ∅.
Proof.
  intros [Hwalk Href] Hk. pose proof (attempt_refers _ _ _ _ Hwalk) as Hrefers.
  destruct e as [t attr | p t | what [p |]]; simpl in Href, Hrefers.
  - apply map_chunks_missing_key in Hwalk. simplify_eq.
    rewrite lookup_insert_ne; [done | congruence].
  - destruct Hrefers as (_ & t' & -> & _ & Hentry).
    apply truthy_entry_is_Some in Hentry as (recorded & Hp & Hne).
    rewrite Hp in Href. simplify_eq.
    rewrite lookup_insert_ne; [done | congruence].
  - case_bool_decide; simplify_eq. destruct (decide (p = k)) as [-> |].
    + by rewrite lookup_insert_eq.
    + by rewrite lookup_insert_ne.
  - done.
Qed.

Lemma retry_on_entry (data : Data) (pos : nat) (schema schema' : Schema) (e : Exception)
    (kt : option string * string) :
  retry_on data pos schema e schema' ->
  (forall what attr, e <> OtherException what attr) ->
  is_entry schema kt = true -> is_entry schema' kt = true.
Proof.
  intros [Hwalk Href] Hkind. unfold is_entry. destruct kt as [k t0]. simpl.
  destruct (schema !! k) as [recorded |] eqn:Hk; [| done]. intros Hin.
  apply bool_decide_eq_true_1 in Hin.
  destruct e as [t attr | p t | what attr]; simpl in Href.
  - apply map_chunks_missing_key in Hwalk. simplify_eq.
    rewrite lookup_insert_ne by congruence. rewrite Hk. by apply bool_decide_eq_true_2.
  - destruct (schema !! p) as [recorded' |] eqn:Hp; simplify_eq.
    destruct (decide (p = k)) as [-> |].
    + rewrite lookup_insert_eq. simplify_eq. apply bool_decide_eq_true_2.
      unfold DUMMY. set_solver.
    + rewrite lookup_insert_ne by done. rewrite Hk. by apply bool_decide_eq_true_2.
  - by destruct (Hkind what attr).
Qed.

(** Every retry brings the schema strictly closer to the one that records
    everything as a data leaf. *)
Lemma retry_on_distance (data : Data) (pos : nat) (schema schema' : Schema)
    (e : Exception) :
  retry_on data pos schema e schema' ->
  (distance (tags_of (seek pos data)) schema'
   < distance (tags_of (seek pos data)) schema)%nat.
Proof.
  intros Hretry. unfold distance.
  set (tags := tags_of (seek pos data)).
  set (keys := stream_keys tags). set (pairs := list_prod keys tags).
  pose proof (count_le (is_leaf schema') keys) as Hl'.
  pose proof (count_le (is_key schema') keys) as Hk'.
  pose proof (count_le (is_entry schema) pairs) as He.
  pose proof (count_le (is_entry schema') pairs) as He'.
  assert (count (is_leaf schema) keys <= count (is_leaf schema') keys)%nat as Hleaves.
  { apply count_mono. intros k _ Hk. unfold is_leaf in *.
    apply bool_decide_eq_true_1 in Hk. apply bool_decide_eq_true_2.
    by apply (retry_on_leaf data pos schema schema' e). }
  assert (count (is_key schema) keys <= count (is_key schema') keys)%nat as Hkeys.
  { apply count_mono. intros k _ Hk. unfold is_key in *.
    apply bool_decide_eq_true_1 in Hk. apply bool_decide_eq_true_2.
    destruct Hretry as [_ Href]. by apply (refine_keeps_keys schema schema' e). }
  pose proof Hretry as [Hwalk Href].
  pose proof (attempt_refers _ _ _ _ Hwalk) as Hrefers. fold tags in Hrefers.
  destruct e as [t attr | p t | what [p |]]; simpl in Href, Hrefers.
  - assert (count (is_key schema) keys < count (is_key schema') keys)%nat.
    { apply (count_strict _ _ keys (Some t)).
      - right. by apply list_elem_of_fmap_2.
      - apply map_chunks_missing_key in Hwalk. unfold is_key.
        apply bool_decide_eq_false_2. rewrite Hwalk. by intros [? ?].
      - simplify_eq. unfold is_key. apply bool_decide_eq_true_2.
        rewrite lookup_insert_eq. by eexists.
      - intros k _ Hk. unfold is_key in *.
        apply bool_decide_eq_true_1 in Hk. apply bool_decide_eq_true_2.
        by apply (refine_keeps_keys schema schema' (MissingSchemaKey t attr)). }
    assert (count (is_entry schema) pairs <= count (is_entry schema') pairs)%nat.
    { apply count_mono. intros kt _.
      by apply (retry_on_entry data pos schema schema' (MissingSchemaKey t attr)). }
    nia.
  - assert (count (is_entry schema) pairs < count (is_entry schema') pairs)%nat.
    { destruct Hrefers as (Ht & t' & -> & Ht' & Hentry).
      apply map_chunks_missing_entry in Hwalk as (recorded & Hp & Hnotin).
      rewrite Hp in Href. simplify_eq.
      apply (count_strict _ _ pairs (Some t', t)).
      - apply list_elem_of_In, in_prod; apply list_elem_of_In; [| done].
        right. by apply list_elem_of_fmap_2.
      - unfold is_entry. simpl. rewrite Hp. by apply bool_decide_eq_false_2.
      - unfold is_entry. simpl. rewrite lookup_insert_eq.
        apply bool_decide_eq_true_2. set_solver.
      - intros kt _.
        by apply (retry_on_entry data pos schema _ (MissingSchemaEntry (Some t') t)). }
    nia.
  - assert (count (is_leaf schema) keys < count (is_leaf schema') keys)%nat.
    { destruct Hrefers as (p' & [= <-] & Hunder).
      case_bool_decide as Hnot; simplify_eq.
      apply (count_strict _ _ keys p).
      - by apply (walked_under_key tags schema).
      - unfold is_leaf. by apply bool_decide_eq_false_2.
      - unfold is_leaf. apply bool_decide_eq_true_2. by rewrite lookup_insert_eq.
      - intros k _ Hk. unfold is_leaf in *.
        apply bool_decide_eq_true_1 in Hk. apply bool_decide_eq_true_2.
        by apply (retry_on_leaf data pos schema _ (OtherException what (Some p))). }
    pose proof (count_le (is_leaf schema) keys).
    nia.
  - done.
Qed.

Lemma distance_empty (tags : list string) (schema : Schema) :
  (distance tags schema
   <= S (length (list_prod (stream_keys tags) tags)) * length (stream_keys tags)
      + length (stream_keys tags) + length (list_prod (stream_keys tags) tags))%nat.
Proof. unfold distance. nia. Qed.

Lemma generate_schema_loop_ends (attempts pos : nat) (data : Data) :
  forall schema : Schema,
    (distance (tags_of (seek pos data)) schema < attempts)%nat ->
    exists r, generate_schema_loop attempts pos data schema = Some r.
Proof.
  induction attempts as [| attempts IH]; intros schema Hd; [lia |].
  rewrite generate_schema_loop_step.
  destruct (attempt data pos schema) as [e |] eqn:Hwalk; [| eauto].
  destruct (refine schema e) as [schema' | u] eqn:Href; [| eauto].
  apply IH.
  pose proof (retry_on_distance data pos schema schema' e (conj Hwalk Href)). lia.
Qed.

Lemma generate_schema_loop_more (attempts extra pos : nat) (data : Data) :
  forall (schema : Schema) (r : result Uncaught Schema),
    generate_schema_loop attempts pos data schema = Some r ->
    generate_schema_loop (attempts + extra) pos data schema = Some r.
Proof.
  induction attempts as [| attempts IH]; intros schema r; [done |].
  replace (S attempts + extra)%nat with (S (attempts + extra)) by lia.
  rewrite !generate_schema_loop_step.
  destruct (attempt data pos schema) as [e |]; [| done].
  destruct (refine schema e) as [schema' | u]; [apply IH | done].
Qed.

(** X17. [generate_schema] terminates on every stream: with
    [attempts_bound data] turns of the loop, a number computed from the
    tags in the stream, it returns a schema or raises, and more turns give
    the same answer. *)
Theorem generate_schema_terminates (data : Data) (attempts : nat) :
  (attempts_bound data <= attempts)%nat ->
  exists r : result Uncaught Schema,
    generate_schema (attempts_bound data) data = Some r /\
    generate_schema attempts data = Some r.
Proof.
  intros Hle. unfold generate_schema.
  destruct (generate_schema_loop_ends (attempts_bound data) (tell data) data ∅) as [r Hr].
  { pose proof (distance_empty (tags_of (seek (tell data) data)) ∅) as Hd.
    unfold attempts_bound, stream_keys in *.
    rewrite length_prod in *. simpl in *. rewrite length_fmap in *. lia. }
  exists r. split; [done |].
  replace attempts with (attempts_bound data + (attempts - attempts_bound data))%nat by lia.
  by apply generate_schema_loop_more.
Qed.

(** ** What the engine records and returns *)

(** X18. A key recorded as a data leaf, the empty set, stays a data leaf
    through every later retry: no handler touches it again. *)
Theorem data_leaf_is_final (data : Data) (pos : nat) (schema schema' : Schema)
    (k : option string) :
  rtc (retry data pos) schema schema' ->
  schema !! k = Some ∅ -> schema' !! k = Some ∅.
Proof.
  induction 1 as [| s1 s2 s3 [e Hretry] _ IH]; [done |].
  intros Hk. apply IH. by apply (retry_on_leaf data pos s1 s2 e).
Qed.

Lemma refine_unmixed (schema schema' : Schema) (e : Exception) :
  refine schema e = Ok schema' ->
  (forall k recorded, schema !! k = Some recorded -> unmixed recorded) ->
  forall k recorded, schema' !! k = Some recorded -> unmixed recorded.
Proof.
  intros Href Hinv k recorded.
  destruct e as [t attr | p t | what [p |]]; simpl in Href.
  - simplify_eq. destruct (decide (Some t = k)) as [<- |].
    + rewrite lookup_insert_eq. intros [= <-]. by left.
    + rewrite lookup_insert_ne by done. apply Hinv.
  - destruct (schema !! p) as [old |] eqn:Hp; simplify_eq.
    destruct (decide (p = k)) as [<- |].
    + rewrite lookup_insert_eq. intros [= <-]. right. intros z.
      destruct (Hinv p old Hp) as [-> | Hold].
      * unfold DUMMY. rewrite elem_of_union, elem_of_difference, !elem_of_singleton.
        intros [[Hz Hnz] | Hz]; [done | discriminate].
      * specialize (Hold z). unfold DUMMY.
        rewrite elem_of_union, elem_of_difference, !elem_of_singleton.
        intros [[Hz _] | Hz]; [done | discriminate].
    + rewrite lookup_insert_ne by done. apply Hinv.
  - case_bool_decide; simplify_eq. destruct (decide (p = k)) as [<- |].
    + rewrite lookup_insert_eq. intros [= <-]. right. intros z. unfold DATA. set_solver.
    + rewrite lookup_insert_ne by done. apply Hinv.
  - done.
Qed.

Lemma retries_unmixed (data : Data) (pos : nat) (schema schema' : Schema) :
  rtc (retry data pos) schema schema' ->
  (forall k recorded, schema !! k = Some recorded -> unmixed recorded) ->
  forall k recorded, schema' !! k = Some recorded -> unmixed recorded.
Proof.
  induction 1 as [| s1 s2 s3 [e [_ Href]] _ IH]; [done |].
  intros Hinv. apply IH. by apply (refine_unmixed s1 s2 e).
Qed.

(** X19. The sets of the mapping [generate_schema] returns hold tags
    only: the integer of the sentinel set is in none of them, and none of
    them is the sentinel set. *)
Theorem returned_sets_hold_tags (attempts : nat) (data : Data) (result : Schema)
    (k : option string) (recorded : gset Member) :
  generate_schema attempts data = Some (Ok result) ->
  result !! k = Some recorded ->
  recorded <> DUMMY /\ forall z : Z, inr z ∉ recorded.
Proof.
  unfold generate_schema. intros Hloop.
  destruct (generate_schema_loop_returns _ _ _ _ _ Hloop) as (final & Hrtc & _ & ->).
  rewrite finalize_lookup.
  destruct (final !! k) as [tags |] eqn:Hk; [| done].
  destruct (decide (tags = DUMMY)); [done |]. intros [= <-]. split; [done |].
  assert (unmixed tags) as [? | Htags]; [| done | done].
  apply (retries_unmixed _ _ _ _ Hrtc) with (k := k); [| done].
  intros k' recorded'. by rewrite lookup_empty.
Qed.

(** X20. When [generate_schema] returns, the schema recorded at that
    moment, of which the result is the part without sentinels, explains the
    stream: the strict walk from the starting position yields an element
    for every record, and every element agrees with that schema at every
    depth. *)
Theorem inferred_schema_explains_stream (attempts : nat) (data : Data) (result : Schema) :
  generate_schema attempts data = Some (Ok result) ->
  exists final : Schema,
    result = finalize final /\
    (forall k, is_Some (result !! k) -> is_Some (final !! k)) /\
    let walk := map_chunks final true None (seek (tell data) data) in
    walk.2 = None /\
    length walk.1 = length (read_chunks data) /\
    Forall (fun element => conforms final None element = true) walk.1.
Proof.
  unfold generate_schema. intros Hloop.
  destruct (generate_schema_loop_returns _ _ _ _ _ Hloop) as (final & _ & Hend & ->).
  exists final. split; [done |]. split.
  { intros k. rewrite finalize_lookup. destruct (final !! k); [by eexists | by intros [? ?]]. }
  unfold attempt in Hend. cbv zeta. split; [done |]. split.
  - rewrite (map_chunks_complete _ _ _ _ Hend).
    by rewrite (proj1 (read_chunks_seek_tell data)).
  - apply Forall_forall. intros element Hin.
    pose proof (map_chunks_strict_conforms final _ None Hend) as Hall.
    rewrite forallb_forall in Hall. by apply Hall, list_elem_of_In.
Qed.

(** X21. On a stream in which the reader finds no record, the engine
    returns the empty schema at its first attempt if the reader ends
    normally; if the reader raises, the failure is blamed on the top level,
    recorded under the key [None], and the second attempt ends with
    [ValueError]. *)
Theorem recordless_stream (data : Data) (attempts : nat) :
  read_chunks data = [] ->
  generate_schema (S (S attempts)) data =
    match read_failure data with
    | None => Some (Ok ∅)
    | Some _ => Some (Raise ValueError)
    end.
Proof.
  intros Hnone. unfold generate_schema.
  assert (forall schema : Schema,
            attempt data (tell data) schema =
              (fun w => OtherException w (Some None)) <$> read_failure data) as Hwalk.
  { intros schema. unfold attempt. rewrite map_chunks_unfold.
    destruct (read_chunks_seek_tell data) as [-> ->].
    rewrite Hnone. simpl. by destruct (read_failure data). }
  rewrite generate_schema_loop_step, Hwalk.
  destruct (read_failure data) as [w |]; [| done].
  cbn [fmap option_fmap option_map refine].
  rewrite bool_decide_eq_false_2 by (by rewrite lookup_empty).
  rewrite generate_schema_loop_step, Hwalk.
  cbn [fmap option_fmap option_map refine].
  by rewrite bool_decide_eq_true_2 by (by rewrite lookup_insert_eq).
Qed.

(** ** Searching the children *)

Lemma head_filter {A} (f : A -> bool) (l : list A) :
  match head (List.filter f l) with
  | Some x =>
      exists before after,
        l = (before ++ x :: after)%list /\ f x = true /\
        Forall (fun y => f y = false) before
  | None => Forall (fun y => f y = false) l
  end.
Proof.
  induction l as [| y l IH]; simpl; [constructor |].
  destruct (f y) eqn:Hy; simpl.
  - exists [], l. by repeat split.
  - destruct (head (List.filter f l)) as [x |].
    + destruct IH as (before & after & -> & Hx & Hbefore).
      exists (y :: before), after. repeat split; [done |]. by constructor.
    + by constructor.
Qed.

Lemma filter_sublist {A} (f : A -> bool) (l : list A) : sublist (List.filter f l) l.
Proof.
  induction l as [| y l IH]; simpl; [constructor |].
  destruct (f y); by constructor.
Qed.

(** X22. [find] returns the first child whose tag matches the pattern:
    no child before it matches; it returns [None] when no child matches or
    when there is no element to search. [findall] yields matching children
    only, in the order of the children. *)
Theorem find_first_match (parse : string -> string -> bool) (pattern : string)
    (root : Element) :
  find parse pattern None = None /\
  match find parse pattern (Some root) with
  | Some c =>
      exists before after,
        children root = (before ++ c :: after)%list /\
        parse pattern (tag c) = true /\
        Forall (fun b => parse pattern (tag b) = false) before
  | None => Forall (fun c => parse pattern (tag c) = false) (children root)
  end /\
  sublist (findall parse pattern (Some root)) (children root) /\
  Forall (fun c => parse pattern (tag c) = true) (findall parse pattern (Some root)).
Proof.
  split; [done |]. split; [| split].
  - unfold find, findall.
    apply (head_filter (fun c => parse pattern (tag c)) (children root)).
  - apply filter_sublist.
  - apply Forall_forall. intros c Hc. unfold findall in Hc.
    apply list_elem_of_In, filter_In in Hc. tauto.
Qed.

(** A search by tag equality in the sample tree. *)
Example find_sample :
  find String.eqb "FRME" (Some MoreStreams.family)
    = Some (mkElement "FRME" (mkAttribs 16 12 None) [MoreStreams.grandchild]
              StreamSamples.no_bytes) /\
  find String.eqb "FOBJ" (Some MoreStreams.family) = None.
Proof. split; reflexivity. Qed.

(** ** The engine on further sample streams *)

Lemma lenient_walk_succeeds_witness :
  (map_chunks StreamSamples.learnt1 false (Some "PPPP") StreamSamples.one_child).2 = None /\
  length (map_chunks StreamSamples.learnt1 false (Some "PPPP") StreamSamples.one_child).1
    = length (read_chunks StreamSamples.one_child).
Proof.
  apply (lenient_walk_succeeds StreamSamples.learnt1 StreamSamples.one_child (Some "PPPP")).
  - reflexivity.
  - intros _. vm_compute. by eexists.
Defined.

Lemma strict_walk_conforms_witness :
  length (map_chunks StreamSamples.learnt4 true None StreamSamples.two_containers).1
    = length (read_chunks StreamSamples.two_containers) /\
  Forall (fun element => conforms StreamSamples.learnt4 None element = true)
    (map_chunks StreamSamples.learnt4 true None StreamSamples.two_containers).1.
Proof.
  apply (strict_walk_conforms StreamSamples.learnt4 None StreamSamples.two_containers).
  vm_compute. reflexivity.
Defined.

Lemma generate_schema_terminates_witness :
  exists r : result Uncaught Schema,
    generate_schema (attempts_bound StreamSamples.two_containers)
      StreamSamples.two_containers = Some r /\
    generate_schema 100 StreamSamples.two_containers = Some r.
Proof.
  apply (generate_schema_terminates StreamSamples.two_containers 100).
  vm_compute. lia.
Defined.

(** The bound for [two_containers], three tags counted with repetition,
    against the five attempts the engine needs. *)
Example attempts_bound_sample :
  attempts_bound StreamSamples.two_containers = 69%nat /\
  generate_schema 5 StreamSamples.two_containers
    = generate_schema 69 StreamSamples.two_containers.
Proof. split; vm_compute; reflexivity. Qed.

Lemma data_leaf_is_final_witness :
  MoreStreams.leaf_and_chunk !! Some "XXXX" = Some ∅.
Proof.
  apply (data_leaf_is_final MoreStreams.leaf_then_chunk 0
           MoreStreams.leaf_known MoreStreams.leaf_and_chunk (Some "XXXX")).
  - eapply rtc_l; [| apply rtc_refl].
    exists (MissingSchemaKey "YYYY" (Some None)). split; vm_compute; reflexivity.
  - vm_compute. reflexivity.
Defined.

Lemma returned_sets_hold_tags_witness :
  (∅ : gset Member) <> DUMMY /\ forall z : Z, inr z ∉ (∅ : gset Member).
Proof.
  apply (returned_sets_hold_tags 5 StreamSamples.two_containers
           {[ Some "PPPP" := ∅ ]} (Some "PPPP") ∅).
  - vm_compute. reflexivity.
  - vm_compute. reflexivity.
Defined.

Lemma inferred_schema_explains_stream_witness :
  exists final : Schema,
    ({[ Some "PPPP" := ∅ ]} : Schema) = finalize final /\
    (forall k, is_Some (({[ Some "PPPP" := ∅ ]} : Schema) !! k) -> is_Some (final !! k)) /\
    let walk := map_chunks final true None
                  (seek (tell StreamSamples.two_containers) StreamSamples.two_containers) in
    walk.2 = None /\
    length walk.1 = length (read_chunks StreamSamples.two_containers) /\
    Forall (fun element => conforms final None element = true) walk.1.
Proof.
  apply (inferred_schema_explains_stream 5 StreamSamples.two_containers).
  vm_compute. reflexivity.
Defined.

Lemma recordless_stream_witness :
  generate_schema 2 StreamSamples.unreadable = Some (Raise ValueError).
Proof. apply (recordless_stream StreamSamples.unreadable 0). reflexivity. Defined.

Lemma generate_schema_loop_raises_witness :
  generate_schema_loop 2 0 StreamSamples.unreadable ∅ = Some (Raise ValueError) /\
  ValueError = ValueError.
Proof.
  split; [vm_compute; reflexivity |].
  apply (generate_schema_loop_raises 2 0 StreamSamples.unreadable ∅).
  vm_compute. reflexivity.
Defined.

(** ** Printing the tree *)

Lemma Element_children_ind (P : Element -> Prop) :
  (forall t a kids s, Forall P kids -> P (mkElement t a kids s)) ->
  forall element, P element.
Proof.
  intros Hstep. fix IH 1. intros [t a kids s]. apply Hstep.
  induction kids as [| kid kids IHkids]; constructor; [apply IH | apply IHkids].
Qed.

Lemma string_app_assoc (s1 s2 s3 : string) : (s1 +:+ s2) +:+ s3 = s1 +:+ (s2 +:+ s3).
Proof.
  induction s1 as [| c s1 IH]; [reflexivity |].
  change (String c ((s1 +:+ s2) +:+ s3) = String c (s1 +:+ (s2 +:+ s3))).
  by rewrite IH.
Qed.

Lemma string_app_empty_r (s : string) : s +:+ EmptyString = s.
Proof.
  induction s as [| c s IH]; [reflexivity |].
  change (String c (s +:+ EmptyString) = String c s). by rewrite IH.
Qed.

Lemma string_repeat_comm (s : string) (n : nat) :
  s +:+ string_repeat s n = string_repeat s n +:+ s.
Proof.
  induction n as [| n IH]; cbn [string_repeat].
  - by rewrite string_app_empty_r.
  - by rewrite string_app_assoc, <- IH.
Qed.

Lemma indentation_deeper (level : Z) :
  exists more, indentation (level + 1) = indentation level +:+ more.
Proof.
  unfold indentation. destruct (Z.le_gt_cases 0 level) as [Hnonneg | Hneg].
  - replace (Z.to_nat (level + 1)) with (S (Z.to_nat level)) by lia.
    cbn [string_repeat]. exists "    ". apply string_repeat_comm.
  - replace (Z.to_nat level) with 0%nat by lia. cbn [string_repeat]. by eexists.
Qed.

(** X23. [render] prints nothing for [None]. For an element it prints
    one line for every element of the tree and one more, the closing tag,
    for every element that has children; every line starts with the
    indentation of the level [render] was called with, so the lines of the
    descendants are indented at least as deep as the element's own. *)
Theorem render_lines (element : Element) (level : Z) :
  render None level = [] /\
  length (render (Some element) level)
    = (elements_in element + containers_in element)%nat /\
  Forall (fun line => exists rest, line = indentation level +:+ rest)
    (render (Some element) level).
Proof.
  split; [done |]. simpl. revert level.
  induction element as [t a kids s IH] using Element_children_ind.
  intros level.
  assert (length (flat_map (fun c => render_element c (level + 1)) kids)
          = (list_sum (map elements_in kids) + list_sum (map containers_in kids))%nat
          /\ Forall (fun line => exists rest, line = indentation level +:+ rest)
               (flat_map (fun c => render_element c (level + 1)) kids)) as [Hlen Hind].
  { induction IH as [| kid kids Hkid _ IHkids]; [by split |].
    destruct IHkids as [Hl Hf]. destruct (Hkid (level + 1)) as [Hkl Hkf].
    simpl. rewrite length_app, Hkl, Hl. split; [lia |].
    apply Forall_app. split; [| done].
    destruct (indentation_deeper level) as [more Hmore].
    eapply Forall_impl; [exact Hkf |]. intros line [rest ->].
    exists (more +:+ rest). by rewrite Hmore, string_app_assoc. }
  simpl. destruct kids as [| kid kids].
  - simpl. split; [done |]. constructor; [| constructor].
    by eexists.
  - rewrite length_app, Hlen. simpl length. split; [simpl; lia |].
    constructor; [by eexists |].
    apply Forall_app. split; [done |]. constructor; [| constructor].
    by eexists.
Qed.

(** What is printed for the sample tree. *)
Example render_sample :
  render (Some MoreStreams.family) 0 =
    [ "<ANIM offset=" +:+ dquote +:+ "0" +:+ dquote
        +:+ " size=" +:+ dquote +:+ "40" +:+ dquote +:+ ">";
      "    <AHDR offset=" +:+ dquote +:+ "8" +:+ dquote
        +:+ " size=" +:+ dquote +:+ "6" +:+ dquote +:+ " />";
      "    <FRME offset=" +:+ dquote +:+ "16" +:+ dquote
        +:+ " size=" +:+ dquote +:+ "12" +:+ dquote +:+ ">";
      "        <FOBJ offset=" +:+ dquote +:+ "24" +:+ dquote
        +:+ " size=" +:+ dquote +:+ "4" +:+ dquote +:+ " />";
      "    </FRME>";
      "</ANIM>" ].
Proof. vm_compute. reflexivity. Qed.

End IndexExtras.

(** * Properties of core/chunk.py *)

Section ChunkFacts.
Import Index ChunkPy.

(** X24. [assert_tag] returns the data of the chunk exactly when there
    is a chunk and its tag is the expected one; otherwise it raises
    [ValueError], with a message that tells a missing chunk from a wrong
    tag. *)
Theorem assert_tag_returns (target : string) (chunk : option Chunk) (data : StreamView) :
  (assert_tag target chunk = Ok data <-> chunk = Some (target, data)) /\
  (assert_tag target chunk = Raise (ValueError "no 4CC header") <-> chunk = None).
Proof.
  unfold assert_tag. destruct chunk as [[t d] |].
  - case_bool_decide as Ht.
    + split; split; try done. intros [= -> ->]. done.
    + subst t. split; split; try done.
      * by intros [= ->].
      * by intros [= ->].
  - split; split; done.
Qed.

(** X25. [print_chunks] yields the chunks it is given, unchanged and in
    order, each with its offset shifted by [base], and prints one line for
    each; dropping the offsets afterwards gives what dropping them before
    gives, and printing twice shifts by the sum of the two bases. *)
Theorem print_chunks_offsets (chunks : list (Z * Chunk)) (level level' base base' : Z) :
  drop_offsets (print_chunks chunks level base).1 = drop_offsets chunks /\
  (print_chunks chunks level base).1.*1 = (fun offset => base + offset) <$> chunks.*1 /\
  length (print_chunks chunks level base).2 = length chunks /\
  (print_chunks (print_chunks chunks level base).1 level' base').1
    = (print_chunks chunks level' (base' + base)).1.
Proof.
  unfold print_chunks, drop_offsets. simpl. repeat split.
  - rewrite <- list_fmap_compose. by apply list_fmap_ext.
  - rewrite <- !list_fmap_compose. by apply list_fmap_ext.
  - by rewrite length_fmap.
  - rewrite <- list_fmap_compose. apply list_fmap_ext. intros i [o c] _. simpl.
    f_equal. lia.
Qed.

(** The lines printed for two chunks below a base offset of 8. *)
Example print_chunks_sample :
  (print_chunks [(0, ("AHDR", StreamSamples.five_of_eight));
                 (14, ("FRME", StreamSamples.no_bytes))] 1 8).2
  = ["    8 AHDR 5"; "    22 FRME 0"].
Proof. vm_compute. reflexivity. Qed.

End ChunkFacts.

(** * Further properties of the colour blend and the pixel handlers *)

Section BlendExtras.
Import Decode.

(** X27. With [lower <= upper], [clip] returns a value between the
    bounds, returns its argument when that is between the bounds, does not
    decrease when its argument grows, and clipping twice is clipping once. *)
Theorem clip_within (lower upper value value' : Z) :
  lower <= upper ->
  lower <= clip lower upper value <= upper /\
  (lower <= value <= upper -> clip lower upper value = value) /\
  (value <= value' -> clip lower upper value <= clip lower upper value') /\
  clip lower upper (clip lower upper value) = clip lower upper value.
Proof.
  intros Hle. unfold clip. repeat split; repeat case_match; lia.
Qed.

Lemma clip_within_witness :
  0 <= clip 0 255 300 <= 255 /\
  (0 <= 300 <= 255 -> clip 0 255 300 = 300) /\
  (300 <= 301 -> clip 0 255 300 <= clip 0 255 301) /\
  clip 0 255 (clip 0 255 300) = clip 0 255 300.
Proof. apply (clip_within 0 255 300 301). lia. Defined.

(** X28. For a colour in [0..255] the blend returns the colour itself
    exactly when the delta lies in [-org .. 127 - org], where clipping
    removes the lower bound for colour 0 and the upper bound for colour 255;
    a delta of zero is therefore the identity below 128 only: it raises the
    colours 128..254 by one. The blend does not decrease when the delta or
    the colour grows. *)
Theorem delta_color_identity (org delta delta' : Z) :
  0 <= org <= 255 ->
  (delta_color org delta = org <->
   (org = 0 \/ - org <= delta) /\ (org = 255 \/ delta <= 127 - org)) /\
  delta_color org 0 = (if org <? 128 then org else Z.min 255 (org + 1)) /\
  (delta <= delta' -> delta_color org delta <= delta_color org delta') /\
  (delta_color org delta <= delta_color (org + 1) delta).
Proof.
  intros Horg. unfold delta_color, clip_byte, clip.
  pose proof (Z.div_mod (129 * org + delta) 128 ltac:(lia)) as Hdm.
  pose proof (Z.mod_pos_bound (129 * org + delta) 128 ltac:(lia)) as Hb.
  pose proof (Z.div_mod (129 * org) 128 ltac:(lia)) as Hdm0.
  pose proof (Z.mod_pos_bound (129 * org) 128 ltac:(lia)) as Hb0.
  replace (129 * org + 0) with (129 * org) by lia.
  split; [| split; [| split]].
  - split.
    + repeat case_match; lia.
    + intros Hd. repeat case_match; lia.
  - repeat case_match; lia.
  - intros Hle.
    pose proof (Z.div_le_mono (129 * org + delta) (129 * org + delta') 128
                  ltac:(lia) ltac:(lia)).
    repeat case_match; lia.
  - pose proof (Z.div_le_mono (129 * org + delta) (129 * (org + 1) + delta) 128
                  ltac:(lia) ltac:(lia)).
    repeat case_match; lia.
Qed.

Lemma delta_color_identity_witness :
  (delta_color 200 0 = 200 <->
   (200 = 0 \/ - 200 <= 0) /\ (200 = 255 \/ 0 <= 127 - 200)) /\
  delta_color 200 0 = (if 200 <? 128 then 200 else Z.min 255 (200 + 1)) /\
  (0 <= 5 -> delta_color 200 0 <= delta_color 200 5) /\
  (delta_color 200 0 <= delta_color (200 + 1) 0).
Proof. apply (delta_color_identity 200 0 5). lia. Defined.

(** A zero delta brightens the upper half of the range. *)
Example delta_color_zero_drift :
  delta_color 127 0 = 127 /\ delta_color 128 0 = 129 /\ delta_color 254 0 = 255.
Proof. repeat split. Qed.

Section Overwrite.

Context (unobj : bytes -> res (fobj.FrameObjectHeader * bytes))
        (get_decoder : Z -> option (Z -> Z -> bytes -> res image.Matrix))
        (zlib_decompress : bytes -> res bytes).

(** X29. A pixel payload replaces the screen and never reads it: the
    FOBJ and ZFOB handlers return the same context, or raise the same
    exception, whatever screen the context they are given holds. Of two
    pixel payloads in a frame, the later one alone decides the screen. *)
Theorem pixel_payload_overwrites
    (t : string) (ctx : FrameGenCtx) (s : option Screen) (data : bytes) :
  t = "FOBJ" \/ t = "ZFOB" ->
  handler_of unobj get_decoder zlib_decompress t (replace_screen ctx s) data
  = handler_of unobj get_decoder zlib_decompress t ctx data.
Proof.
  intros [-> | ->]; unfold handler_of; simpl.
  - unfold decode_frame_object, mbind, result_bind.
    by destruct (convert_fobj unobj get_decoder data).
  - unfold decode_compressed_frame_object, decode_frame_object, mbind, result_bind.
    repeat case_match; done.
Qed.

End Overwrite.

Lemma pixel_payload_overwrites_witness :
  handler_of Samples.unobj Samples.get_decoder Samples.stored "FOBJ"
    (replace_screen Samples.ctx0 None) Samples.fobj1
  = handler_of Samples.unobj Samples.get_decoder Samples.stored "FOBJ"
      Samples.ctx0 Samples.fobj1.
Proof.
  apply (pixel_payload_overwrites Samples.unobj Samples.get_decoder Samples.stored).
  by left.
Defined.

End BlendExtras.
